(** * The video job queue of FramePack-Studio ([modules/video_queue.py])

    A shallow embedding of [Job], [VideoJobQueue] and the worker loop, and
    the properties of the queue engine stated in the specification. *)

From Stdlib Require Import ZArith Floats Ascii String List Bool Lia.
From stdpp Require Import gmap strings list fin_maps.

Set Warnings "-register-all,-inexact-float".

(** ** Python floats

    Python's [float] is IEEE binary64, which is the primitive [float] here.
    This module gives the two conversions the queue relies on: [float(n)]
    for an [int] and [float(s)] for a [str]. Strings are sequences of code
    points below 256. *)
Module PyFloat.

Definition of_spec (x : spec_float) : float := SF2Prim x.

(** [float(z)]: rounded to nearest even; [None] is [OverflowError]. *)
Definition of_Z (z : Z) : option float :=
  match binary_normalize prec emax z 0 false with
  | S754_infinity _ => None
  | x => Some (of_spec x)
  end.

(** The binary64 nearest to [num / den]. The quotient is taken with 64
    significant bits and a sticky bit, and rounded once. *)
Definition round_ratio (neg : bool) (num : Z) (den : positive) : spec_float :=
  match num with
  | Zpos n =>
      let k := (Zdigits2 (Zpos den) - Zdigits2 (Zpos n) + 64)%Z in
      let a := (if (0 <=? k)%Z then Z.shiftl (Zpos n) k else Zpos n) in
      let b := (if (0 <=? k)%Z then Zpos den else Z.shiftl (Zpos den) (- k)) in
      let q := (a / b)%Z in
      let sticky := (if (a mod b =? 0)%Z then 0 else 1)%Z in
      let m := (2 * q + sticky)%Z in
      binary_normalize prec emax (if neg then - m else m)%Z (- k - 1) neg
  | _ => S754_zero neg
  end.

(** White space for [float(s)]: tab to carriage return, space, and the
    two Latin-1 spaces U+0085 and U+00A0. *)
Definition is_space (c : ascii) : bool :=
  let n := nat_of_ascii c in
  ((9 <=? n) && (n <=? 13) || (n =? 32) || (n =? 133) || (n =? 160))%nat.

Definition digit (c : ascii) : option Z :=
  let n := Z.of_nat (nat_of_ascii c) in
  if ((48 <=? n) && (n <=? 57))%Z then Some (n - 48)%Z else None.

Definition is_digit (c : ascii) : bool := bool_decide (is_Some (digit c)).

Definition lower (c : ascii) : ascii :=
  let n := nat_of_ascii c in
  if ((65 <=? n) && (n <=? 90))%nat then ascii_of_nat (n + 32) else c.

Fixpoint lstrip (l : list ascii) : list ascii :=
  match l with
  | c :: l' => if is_space c then lstrip l' else l
  | [] => []
  end.

Definition strip (l : list ascii) : list ascii := rev (lstrip (rev (lstrip l))).

(** An underscore may only stand between two digits; it is dropped. *)
Fixpoint drop_underscores (prev : option ascii) (l : list ascii) : option (list ascii) :=
  match l with
  | [] => if bool_decide (prev = Some "_"%char) then None else Some []
  | c :: l' =>
      if bool_decide (c = "_"%char)
      then (if from_option is_digit false prev then drop_underscores (Some c) l' else None)
      else if bool_decide (prev = Some "_"%char) && negb (is_digit c) then None
           else cons c <$> drop_underscores (Some c) l'
  end.

(** Reads a run of digits: the number read so far, how many digits, the rest. *)
Fixpoint digits (acc : Z) (n : Z) (l : list ascii) : Z * Z * list ascii :=
  match l with
  | c :: l' => match digit c with
               | Some d => digits (10 * acc + d)%Z (n + 1)%Z l'
               | None => (acc, n, l)
               end
  | [] => (acc, n, [])
  end.

Definition sign (l : list ascii) : bool * list ascii :=
  match l with
  | "-"%char :: l' => (true, l')
  | "+"%char :: l' => (false, l')
  | _ => (false, l)
  end.

(** An exponent part is read only when it has a digit. *)
Definition exponent (l : list ascii) : Z * list ascii :=
  match l with
  | c :: l1 =>
      if bool_decide (lower c = "e"%char) then
        let '(neg, l2) := sign l1 in
        let '(e, n, l3) := digits 0 0 l2 in
        if (n =? 0)%Z then (0%Z, l) else ((if neg then - e else e)%Z, l3)
      else (0%Z, l)
  | [] => (0%Z, [])
  end.

Definition decimal (neg : bool) (l : list ascii) : option spec_float :=
  let '(ip, n1, l1) := digits 0 0 l in
  let '(m, n2, l2) :=
    match l1 with
    | "."%char :: l' => digits ip 0 l'
    | _ => (ip, 0%Z, l1)
    end in
  if (n1 + n2 =? 0)%Z then None else
  let '(e, l3) := exponent l2 in
  match l3 with
  | [] =>
      let e10 := (e - n2)%Z in
      Some (if (0 <=? e10)%Z
            then binary_normalize prec emax ((if neg then - m else m) * 10 ^ e10)%Z 0 neg
            else round_ratio neg m (Z.to_pos (10 ^ (- e10))))
  | _ => None
  end.

Definition of_chars (l : list ascii) : option spec_float :=
  l0 ← drop_underscores None (strip l);
  let '(neg, l1) := sign l0 in
  let w := String.string_of_list_ascii (map lower l1) in
  if bool_decide (w = "inf") || bool_decide (w = "infinity") then Some (S754_infinity neg)
  else if bool_decide (w = "nan") then Some S754_nan
  else decimal neg l1.

(** [float(s)]; [None] is [ValueError]. *)
Definition of_str (s : string) : option float :=
  of_spec <$> of_chars (String.list_ascii_of_string s).

(** [f == z] for a float and an int: exact comparison of the values. *)
Definition eqb_Z (f : float) (z : Z) : bool :=
  match Prim2SF f with
  | S754_zero _ => (z =? 0)%Z
  | S754_finite s m e =>
      let v := (if s then Zneg m else Zpos m) in
      if (0 <=? e)%Z then (z =? v * 2 ^ e)%Z
      else ((v mod 2 ^ (- e) =? 0) && (z =? v / 2 ^ (- e)))%Z
  | _ => false
  end.

End PyFloat.

(** ** Exceptions and fallible computations *)

Inductive ExnClass : Type :=
  TypeError | ValueError | IndexError | OverflowError | OSError | RuntimeError.

(** An exception: its class and [str(e)]. *)
Record PyExn : Type := Exn { exn_class : ExnClass; exn_str : string }.

Inductive Res (A : Type) : Type :=
| Ok (a : A)
| Raise (e : PyExn).
Arguments Ok {A} a.
Arguments Raise {A} e.

#[global] Instance Res_ret : MRet Res := λ A a, Ok a.
#[global] Instance Res_bind : MBind Res := λ A B f m,
  match m with Ok a => f a | Raise e => Raise e end.

(** [try: m except Exception as e: h e] *)
Definition try_except {A} (m : Res A) (h : PyExn → Res A) : Res A :=
  match m with Ok a => Ok a | Raise e => h e end.

#[global] Instance ExnClass_eq_dec : EqDecision ExnClass.
Proof. solve_decision. Defined.

(** ** Python values

    [params], stream events and serialized records hold arbitrary Python
    objects. Values are finite trees: the JSON-shaped ones, tuples, and two
    kinds of objects known only by their address: numpy arrays (with whether
    PIL can render the array as a PNG image) and all others (stream handles,
    images, callables). *)
Inductive PyVal : Type :=
| VNone
| VBool (b : bool)
| VInt (z : Z)
| VFloat (f : float)
| VStr (s : string)
| VList (l : list PyVal)
| VTuple (l : list PyVal)
| VDict (d : list (PyVal * PyVal))
| VArray (addr : N) (fault : option PyExn)
| VObj (addr : N).

Inductive PyNum : Type := NumZ (z : Z) | NumF (f : float).

(** [bool], [int] and [float] compare by value. *)
Definition py_num (v : PyVal) : option PyNum :=
  match v with
  | VBool b => Some (NumZ (if b then 1 else 0))
  | VInt z => Some (NumZ z)
  | VFloat f => Some (NumF f)
  | _ => None
  end.

Definition num_eqb (a b : PyNum) : bool :=
  match a, b with
  | NumZ x, NumZ y => (x =? y)%Z
  | NumF x, NumF y => PrimFloat.eqb x y
  | NumZ x, NumF y => PyFloat.eqb_Z y x
  | NumF x, NumZ y => PyFloat.eqb_Z x y
  end.

(** [x == y]. Objects compare by identity. *)
Fixpoint py_eq (x y : PyVal) {struct x} : bool :=
  match x, y with
  | VNone, VNone => true
  | VStr a, VStr b => String.eqb a b
  | VList l, VList l' | VTuple l, VTuple l' =>
      (fix go (l l' : list PyVal) : bool :=
         match l, l' with
         | [], [] => true
         | a :: l, b :: l' => py_eq a b && go l l'
         | _, _ => false
         end) l l'
  | VDict d, VDict d' =>
      (length d =? length d')%nat &&
      (fix all (d : list (PyVal * PyVal)) : bool :=
         match d with
         | [] => true
         | (k, v) :: d =>
             (fix find (d' : list (PyVal * PyVal)) : bool :=
                match d' with
                | [] => false
                | (k', v') :: d' => if py_eq k k' then py_eq v v' else find d'
                end) d' && all d
         end) d
  | VArray a _, VArray b _ | VObj a, VObj b => (a =? b)%N
  | _, _ =>
      match py_num x, py_num y with
      | Some a, Some b => num_eqb a b
      | _, _ => false
      end
  end.

(** [hash(v)] succeeds. *)
Fixpoint hashable (v : PyVal) : bool :=
  match v with
  | VList _ | VDict _ | VArray _ _ => false
  | VTuple l => forallb hashable l
  | _ => true
  end.

(** [type(v).__name__], as it appears in messages. *)
Definition type_name (v : PyVal) : string :=
  match v with
  | VNone => "NoneType" | VBool _ => "bool" | VInt _ => "int"
  | VFloat _ => "float" | VStr _ => "str" | VList _ => "list"
  | VTuple _ => "tuple" | VDict _ => "dict" | VArray _ _ => "numpy.ndarray"
  | VObj _ => "object"
  end.

(** The value on which [hash(v)] fails: [v] itself, or the first item of a
    tuple on which it fails. *)
Fixpoint unhashed (v : PyVal) : option PyVal :=
  match v with
  | VList _ | VDict _ | VArray _ _ => Some v
  | VTuple l =>
      (fix first (l : list PyVal) : option PyVal :=
         match l with
         | [] => None
         | x :: l => match unhashed x with
                     | Some u => Some u
                     | None => first l
                     end
         end) l
  | _ => None
  end.

(** What [hash(v)] raises: the message names the type of the value that
    cannot be hashed. *)
Definition unhashable (v : PyVal) : PyExn :=
  Exn TypeError ("unhashable type: '" +:+ type_name (default v (unhashed v)) +:+ "'").

(** [bool(v)], as taken by [if] and [and]. An image array has several
    elements, so its truth value is ambiguous. *)
Definition truth (v : PyVal) : Res bool :=
  match v with
  | VNone => Ok false
  | VBool b => Ok b
  | VInt z => Ok (negb (z =? 0)%Z)
  | VFloat f => Ok (negb (PrimFloat.eqb f 0))
  | VStr s => Ok (negb (String.eqb s ""))
  | VList l | VTuple l => Ok (negb (bool_decide (l = [])))
  | VDict d => Ok (negb (bool_decide (d = [])))
  | VArray _ _ =>
      Raise (Exn ValueError "The truth value of an array with more than one element is ambiguous. Use a.any() or a.all()")
  | VObj _ => Ok true
  end.

(** [float(v)] *)
Definition py_float (v : PyVal) : Res float :=
  match v with
  | VFloat f => Ok f
  | VBool b => Ok (if b then 1 else 0)%float
  | VInt z =>
      match PyFloat.of_Z z with
      | Some f => Ok f
      | None => Raise (Exn OverflowError "int too large to convert to float")
      end
  | VStr s =>
      match PyFloat.of_str s with
      | Some f => Ok f
      | None => Raise (Exn ValueError ("could not convert string to float: '" +:+ s +:+ "'"))
      end
  | _ =>
      Raise (Exn TypeError ("float() argument must be a string or a real number, not '"
                            +:+ type_name v +:+ "'"))
  end.

(** [json.dumps] has an encoding for [v]. It raises [TypeError] on an
    object it has no encoding for and on a dict key that is not a [str],
    number, [bool] or [None]. *)
Fixpoint json_serializable (v : PyVal) : bool :=
  match v with
  | VNone | VBool _ | VInt _ | VFloat _ | VStr _ => true
  | VList l | VTuple l => forallb json_serializable l
  | VDict d =>
      forallb (λ kv, match kv.1 with
                     | VNone | VBool _ | VInt _ | VFloat _ | VStr _ => true
                     | _ => false
                     end && json_serializable kv.2) d
  | VArray _ _ | VObj _ => false
  end.

(** A Python dict whose keys are any hashable values, in insertion order. *)
Definition PyDict : Type := list (PyVal * PyVal).

(** [d[k]] *)
Fixpoint dict_get (k : PyVal) (d : PyDict) : option PyVal :=
  match d with
  | [] => None
  | (k', v) :: d => if py_eq k' k then Some v else dict_get k d
  end.

Fixpoint dict_put (k v : PyVal) (d : PyDict) : PyDict :=
  match d with
  | [] => [(k, v)]
  | (k', v') :: d => if py_eq k' k then (k', v) :: d else (k', v') :: dict_put k v d
  end.

(** [d[k] = v] *)
Definition dict_setitem (k v : PyVal) (d : PyDict) : Res PyDict :=
  if hashable k then Ok (dict_put k v d) else Raise (unhashable k).

(** A dict with [str] keys as a value. The order of its entries is not
    kept. *)
Definition dict_of_map (m : gmap string PyVal) : PyVal :=
  VDict ((λ kv, (VStr kv.1, kv.2)) <$> map_to_list m).

(** [l.index(x)]; [None] is [ValueError]. The items are compared by [==];
    values have no identity in the model, so an item that is not equal to
    itself (a nan) is not found, where the code finds it when [x] is that
    very object. *)
Fixpoint list_index (x : PyVal) (l : list PyVal) : option nat :=
  match l with
  | [] => None
  | y :: l => if py_eq y x then Some 0%nat else S <$> list_index x l
  end.

(** ** SimpleLifoQueue

    The list [_queue]. The mutex and the condition make [put] and [get]
    atomic; a [get] on an empty list waits for a [put]. *)
Module SimpleLifoQueue.

Definition t : Type := list PyVal.

(** [SimpleLifoQueue()] *)
Definition new : t := [].

(** [put(item)]: [self._queue.append(item)] *)
Definition put (item : PyVal) (q : t) : t := q ++ [item].

(** [get()]: [self._queue.pop()], the last item, once the list is not
    empty; [None] while the call waits. *)
Definition get (q : t) : option (PyVal * t) :=
  match rev q with
  | [] => None
  | item :: rest => Some (item, rev rest)
  end.

(** [task_done()] *)
Definition task_done (q : t) : t := q.

End SimpleLifoQueue.

(** ** Jobs *)

Inductive JobStatus : Type := PENDING | RUNNING | COMPLETED | FAILED | CANCELLED.

#[global] Instance JobStatus_eq_dec : EqDecision JobStatus.
Proof. solve_decision. Defined.

(** [status.value] *)
Definition value (s : JobStatus) : string :=
  match s with
  | PENDING => "pending"
  | RUNNING => "running"
  | COMPLETED => "completed"
  | FAILED => "failed"
  | CANCELLED => "cancelled"
  end.

(** Modelled from the spec: [AsyncStream] of [diffusers_helper.thread_utils],
    which the sources do not include. A per-job pair of FIFO channels: the
    input side carries control signals to the running routine, the output
    side carries the routine's events, each a flag with its data. *)
Record AsyncStream : Type := mkStream {
  input_queue : list PyVal;
  output_queue : list (string * PyVal);
}.

(** [q.push(x)] *)
Definition push {A} (x : A) (q : list A) : list A := q ++ [x].

(** What a thumbnail shows. The thumbnail itself is the data URL of the PNG
    encoding of this picture, at most 100 by 100 pixels. *)
Inductive Picture : Type :=
| ArrayPreview (addr : N)
| Fill (r g b : Z).

(** The dataclass [Job]. Every job of a queue is made by [add_job], which
    gives it a stream. *)
Record Job : Type := mkJob {
  id : string;
  params : gmap string PyVal;
  status : JobStatus;
  created_at : float;
  started_at : option float;
  completed_at : option float;
  error : option string;
  result : PyVal;
  progress_data : PyVal;
  queue_position : option Z;
  stream : AsyncStream;
  input_image : PyVal;
  latent_type : PyVal;
  thumbnail : option Picture;
  generation_type : PyVal;
}.

Definition set_status (s : JobStatus) (j : Job) : Job :=
  mkJob (id j) (params j) s (created_at j) (started_at j) (completed_at j)
    (error j) (result j) (progress_data j) (queue_position j) (stream j)
    (input_image j) (latent_type j) (thumbnail j) (generation_type j).

Definition set_started_at (t : float) (j : Job) : Job :=
  mkJob (id j) (params j) (status j) (created_at j) (Some t) (completed_at j)
    (error j) (result j) (progress_data j) (queue_position j) (stream j)
    (input_image j) (latent_type j) (thumbnail j) (generation_type j).

Definition set_completed_at (t : float) (j : Job) : Job :=
  mkJob (id j) (params j) (status j) (created_at j) (started_at j) (Some t)
    (error j) (result j) (progress_data j) (queue_position j) (stream j)
    (input_image j) (latent_type j) (thumbnail j) (generation_type j).

Definition set_error (e : string) (j : Job) : Job :=
  mkJob (id j) (params j) (status j) (created_at j) (started_at j) (completed_at j)
    (Some e) (result j) (progress_data j) (queue_position j) (stream j)
    (input_image j) (latent_type j) (thumbnail j) (generation_type j).

Definition set_result (r : PyVal) (j : Job) : Job :=
  mkJob (id j) (params j) (status j) (created_at j) (started_at j) (completed_at j)
    (error j) r (progress_data j) (queue_position j) (stream j)
    (input_image j) (latent_type j) (thumbnail j) (generation_type j).

Definition set_progress_data (p : PyVal) (j : Job) : Job :=
  mkJob (id j) (params j) (status j) (created_at j) (started_at j) (completed_at j)
    (error j) (result j) p (queue_position j) (stream j)
    (input_image j) (latent_type j) (thumbnail j) (generation_type j).

Definition set_stream (s : AsyncStream) (j : Job) : Job :=
  mkJob (id j) (params j) (status j) (created_at j) (started_at j) (completed_at j)
    (error j) (result j) (progress_data j) (queue_position j) s
    (input_image j) (latent_type j) (thumbnail j) (generation_type j).

Definition set_thumbnail (t : option Picture) (j : Job) : Job :=
  mkJob (id j) (params j) (status j) (created_at j) (started_at j) (completed_at j)
    (error j) (result j) (progress_data j) (queue_position j) (stream j)
    (input_image j) (latent_type j) t (generation_type j).

(** The colour table of [__post_init__]. *)
Definition color_map : list (string * (Z * Z * Z)) :=
  [("Black", (0, 0, 0)); ("White", (255, 255, 255));
   ("Noise", (128, 128, 128)); ("Green Screen", (0, 177, 64))]%Z.

Fixpoint assoc {A} (k : string) (l : list (string * A)) : option A :=
  match l with
  | [] => None
  | (k', a) :: l => if String.eqb k' k then Some a else assoc k l
  end.

(** [color_map.get(k, (0, 0, 0))]: the key is hashed first. *)
Definition color_map_get (k : PyVal) : Res (Z * Z * Z) :=
  if hashable k then
    Ok (match k with
        | VStr s => default (0, 0, 0)%Z (assoc s color_map)
        | _ => (0, 0, 0)%Z
        end)
  else Raise (unhashable k).

(** The thumbnail of an input image. On an array that is not an image
    [Image.fromarray] raises [TypeError], or [img.save] raises [OSError] or
    [ValueError]; the array carries what is raised ([fault]). *)
Definition image_thumbnail (v : PyVal) : Res (option Picture) :=
  match v with
  | VArray a fault =>
      match fault with
      | None => Ok (Some (ArrayPreview a))
      | Some e => Raise e
      end
  | VStr _ => Ok (Some (Fill 0 0 128))
  | _ => Ok None
  end.

(** [Job.__post_init__], on the fields given to the constructor. *)
Definition post_init (j : Job) : Res Job :=
  let gen := default (VStr "Original") (params j !! "model_type") in
  let mk img lat thumb :=
    mkJob (id j) (params j) (status j) (created_at j) (started_at j) (completed_at j)
      (error j) (result j) (progress_data j) (queue_position j) (stream j)
      img lat thumb gen in
  match params j !! "input_image" with
  | Some VNone | None =>
      match params j !! "latent_type" with
      | Some t =>
          c ← color_map_get t;
          Ok (mk (input_image j) t (Some (Fill c.1.1 c.1.2 c.2)))
      | None => Ok (mk (input_image j) (latent_type j) (thumbnail j))
      end
  | Some v =>
      thumb ← image_thumbnail v;
      Ok (mk v (latent_type j) thumb)
  end.

(** [Job(id=job_id, params=params, status=JobStatus.PENDING,
    created_at=now, progress_data={}, stream=AsyncStream())] *)
Definition new_job (job_id : string) (p : gmap string PyVal) (now : float) : Res Job :=
  post_init (mkJob job_id p PENDING now None None None VNone (VDict []) None
               (mkStream [] []) VNone VNone None VNone).

(** ** The snapshot serializer *)

Definition opt_float (o : option float) : PyVal := from_option VFloat VNone o.
Definition opt_str (o : option string) : PyVal := from_option VStr VNone o.
Definition opt_int (o : option Z) : PyVal := from_option VInt VNone o.

(** The dict literal that opens [serialize_job]. *)
Definition simplified (job : Job) : gmap string PyVal :=
  <["generation_type" := generation_type job]>
  (<["queue_position" := opt_int (queue_position job)]>
  (<["result" := result job]>
  (<["error" := opt_str (error job)]>
  (<["completed_at" := opt_float (completed_at job)]>
  (<["started_at" := opt_float (started_at job)]>
  (<["created_at" := VFloat (created_at job)]>
  (<["status" := VStr (value (status job))]>
  (<["id" := VStr (id job)]> ∅)))))))).

Definition excluded : list string := ["input_image"; "end_frame_image"; "stream"].

(** Whether the first loop keeps the entry [k: v]: the key is not excluded
    and [json.dumps({k: v})] does not raise. *)
Definition kept (k : string) (v : PyVal) : bool :=
  negb (bool_decide (k ∈ excluded)) && json_serializable v.

(** The entries the loop over [job.params.items()] keeps. *)
Definition simplified_params (p : gmap string PyVal) : gmap string PyVal :=
  map_fold (λ k v acc, if kept k v then <[k := v]> acc else acc) ∅ p.

(** Besides [TypeError], [json.dumps] raises [ValueError] on an int with more
    digits than [sys.get_int_max_str_digits()] allows and [RecursionError]
    on a value nested deeper than the stack allows; the handler in the loop
    (line 146) catches neither. Whether this happens depends on the
    interpreter and on the stack at the call, so it is an input of the
    model, as the clock is: [lim v] is what [json.dumps] raises on [v]
    before it meets anything it has no encoding for, [None] when it stays
    within the limits. *)
Definition Limits : Type := PyVal → option PyExn.

(** An interpreter whose limits are not reached. *)
Definition no_limit : Limits := λ _, None.

(** What leaves the loop over [job.params.items()], if anything: what
    [json.dumps] raised on an entry whose key is not excluded. When several
    entries fail, the code raises for the first of them in the order of the
    dict, which the map does not keep; the model takes one of them. *)
Definition limit_hit (lim : Limits) (p : gmap string PyVal) : option PyExn :=
  map_fold (λ k v hit,
              if bool_decide (k ∈ excluded) then hit
              else match lim v with
                   | Some e => Some e
                   | None => hit
                   end) None p.

(** The loop over [job.params.items()], lines 139 to 148. *)
Definition params_loop (lim : Limits) (p : gmap string PyVal) : Res (gmap string PyVal) :=
  match limit_hit lim p with
  | Some e => Raise e
  | None => Ok (simplified_params p)
  end.

(** [if not isinstance(x, list): x = [x] if x is not None else []] *)
Definition as_list (x : PyVal) : list PyVal :=
  match x with
  | VList l => l
  | VNone => []
  | _ => [x]
  end.

(** The body of the [try] for one selected LoRA, up to [float(weight_value)]. *)
Definition lora_weight (lora_name : PyVal) (lora_loaded_names lora_values : list PyVal)
  : Res float :=
  idx ← match lora_loaded_names with
        | [] => Ok (-1)%Z
        | _ => match list_index lora_name lora_loaded_names with
               | Some i => Ok (Z.of_nat i)
               | None => Raise (Exn ValueError "list.index(x): x not in list")
               end
        end;
  let weight :=
    if negb (bool_decide (lora_values = [])) && (0 <=? idx)%Z
       && (idx <? Z.of_nat (length lora_values))%Z
    then default (VFloat 1) (lora_values !! Z.to_nat idx)
    else VFloat 1 in
  let weight_value :=
    match weight with
    | VList (w :: _) => w
    | VList [] => VFloat 1
    | _ => weight
    end in
  py_float weight_value.

(** One turn of the loop over [selected_loras]. Both handlers store the
    default weight. *)
Definition lora_step (lora_loaded_names lora_values : list PyVal)
    (lora_data : PyDict) (lora_name : PyVal) : Res PyDict :=
  try_except
    (w ← lora_weight lora_name lora_loaded_names lora_values;
     dict_setitem lora_name (VFloat w) lora_data)
    (λ _, dict_setitem lora_name (VFloat 1) lora_data).

Fixpoint lora_loop (lora_loaded_names lora_values : list PyVal)
    (selected_loras : list PyVal) (lora_data : PyDict) : Res PyDict :=
  match selected_loras with
  | [] => Ok lora_data
  | lora_name :: rest =>
      d ← lora_step lora_loaded_names lora_values lora_data lora_name;
      lora_loop lora_loaded_names lora_values rest d
  end.

(** [job.params.get(k, [])] made a list. *)
Definition param_list (p : gmap string PyVal) (k : string) : list PyVal :=
  as_list (default (VList []) (p !! k)).

(** The LoRA block: the projected params, with ["loras"] when
    [selected_loras] is present and true. *)
Definition with_loras (p serialized_params : gmap string PyVal) : Res (gmap string PyVal) :=
  match p !! "selected_loras" with
  | Some sel =>
      t ← truth sel;
      if (t : bool) then
        lora_data ← lora_loop (param_list p "lora_loaded_names") (param_list p "lora_values")
                      (as_list sel) [];
        Ok (<["loras" := VDict lora_data]> serialized_params)
      else Ok serialized_params
  | None => Ok serialized_params
  end.

(** The body of the outer [try] of [serialize_job]. *)
Definition serialize_body (lim : Limits) (job : Job) : Res (gmap string PyVal) :=
  kept_params ← params_loop lim (params job);
  serialized_params ← with_loras (params job) kept_params;
  Ok (<["params" := dict_of_map serialized_params]> (simplified job)).

(** The record of the outer handler. *)
Definition minimal (job : Job) (e : PyExn) : gmap string PyVal :=
  <["error" := VStr ("Error serializing: " +:+ exn_str e)]>
  (<["status" := VStr (value (status job))]>
  (<["id" := VStr (id job)]> ∅)).

Definition serialize_job (lim : Limits) (job : Job) : gmap string PyVal :=
  match serialize_body lim job with
  | Ok serialized => serialized
  | Raise e => minimal job e
  end.

(** ** The queue *)

(** The fields of [VideoJobQueue]. [current_job] refers to a job of the
    table: [add_job] is the only writer of table entries and job ids are
    fresh, so the reference is the job's id. [worker_function] is a
    callable, known by its address. *)
Record VideoJobQueue : Type := mkQueue {
  queue : list string;
  jobs : gmap string Job;
  current_job : option string;
  worker_function : option N;
  is_processing : bool;
}.

(** [VideoJobQueue()] *)
Definition init : VideoJobQueue := mkQueue [] ∅ None None false.

Definition set_jobs (m : gmap string Job) (q : VideoJobQueue) : VideoJobQueue :=
  mkQueue (queue q) m (current_job q) (worker_function q) (is_processing q).

Definition set_queue (l : list string) (q : VideoJobQueue) : VideoJobQueue :=
  mkQueue l (jobs q) (current_job q) (worker_function q) (is_processing q).

(** A change made through a reference to the job [job_id] of the table. *)
Definition update_job (f : Job → Job) (job_id : string) (q : VideoJobQueue) : VideoJobQueue :=
  set_jobs (alter f job_id (jobs q)) q.

Definition set_worker_function (f : N) (q : VideoJobQueue) : VideoJobQueue :=
  mkQueue (queue q) (jobs q) (current_job q) (Some f) (is_processing q).

(** The state of [queue.json]: what the last [json.dump] wrote, or a
    partial document when it raised on the way. *)
Inductive FileContent : Type :=
| Written (doc : gmap string (gmap string PyVal))
| Partial.

(** [save_queue_to_json]. [open_ok] tells whether the file can be opened
    for writing. [json.dump] writes the document unless it meets a value it
    has no encoding for or a limit of the interpreter. The function catches
    whatever is raised. *)
Definition save_queue_to_json (lim : Limits) (open_ok : bool) (q : VideoJobQueue)
    (file : option FileContent) : option FileContent :=
  let serialized_jobs := serialize_job lim <$> jobs q in
  if open_ok then
    if bool_decide (map_Forall (λ _ r, map_Forall (λ _ v, Is_true (json_serializable v))
                                         (r : gmap string PyVal)) serialized_jobs)
    then match lim (dict_of_map (dict_of_map <$> serialized_jobs)) with
         | None => Some (Written serialized_jobs)
         | Some _ => Some Partial
         end
    else Some Partial
  else file.

(** [add_job(params)]. [job_id] is the value of [uuid.uuid4()] and [now]
    that of [time.time()]; [lim] tells where the snapshot meets a limit of
    the interpreter. The result is what is returned or raised, the queue
    and the file afterwards. *)
Definition add_job (lim : Limits) (p : gmap string PyVal) (job_id : string) (now : float)
    (open_ok : bool) (q : VideoJobQueue) (file : option FileContent)
  : Res string * VideoJobQueue * option FileContent :=
  match new_job job_id p now with
  | Ok job =>
      let q' := set_queue (push job_id (queue q)) (set_jobs (<[job_id := job]> (jobs q)) q) in
      (Ok job_id, q', save_queue_to_json lim open_ok q' file)
  | Raise e => (Raise e, q, file)
  end.

Definition get_job (job_id : string) (q : VideoJobQueue) : option Job := jobs q !! job_id.

Definition get_all_jobs (q : VideoJobQueue) : list Job := (map_to_list (jobs q)).*2.

(** [cancel_job(job_id)] *)
Definition cancel_job (job_id : string) (now : float) (q : VideoJobQueue)
  : bool * VideoJobQueue :=
  match jobs q !! job_id with
  | Some job =>
      match status job with
      | PENDING =>
          (true, set_jobs (<[job_id := set_completed_at now (set_status CANCELLED job)]> (jobs q)) q)
      | RUNNING =>
          let s := mkStream (push (VStr "end") (input_queue (stream job)))
                            (output_queue (stream job)) in
          (true, set_jobs (<[job_id := set_completed_at now
                                         (set_status CANCELLED (set_stream s job))]> (jobs q)) q)
      | _ => (false, q)
      end
  | None => (false, q)
  end.

(** [get_queue_position(job_id)] *)
Definition get_queue_position (job_id : string) (q : VideoJobQueue) : option Z :=
  match jobs q !! job_id with
  | None => None
  | Some job =>
      match status job with
      | RUNNING => Some 0%Z
      | PENDING =>
          Some (map_fold (λ _ j position,
                            if bool_decide (status j = PENDING)
                               && PrimFloat.ltb (created_at j) (created_at job)
                            then (position + 1)%Z else position)
                         1%Z (jobs q))
      | _ => None
      end
  end.

(** [update_job_progress(job_id, progress_data)] *)
Definition update_job_progress (job_id : string) (p : PyVal) (q : VideoJobQueue)
  : VideoJobQueue :=
  update_job (set_progress_data p) job_id q.

(** ** The worker loop

    [_worker_loop] runs in its own thread. Between two of its [with
    self.lock] blocks the other threads may call the queue, so the loop is
    cut into steps, one for each block with the code that leads to it, and
    [WorkerPc] tells where the thread stands. *)
Inductive WorkerPc : Type :=
| AtGet                                   (* [queue.get], line 317 *)
| AtTry (job_id : string)                 (* the inner [try], line 349 *)
| AtCheck (job_id : string)               (* the head of the drain loop, line 371 *)
| AtNext (job_id : string)                (* [output_queue.next()], line 387 *)
| AtFinally (job_id : string) (job_completed : bool) (raised : option PyExn)
                                          (* [finally], line 430; [raised] is in flight *)
| AtExcept (e : PyExn).                   (* the outer handler, line 448 *)

(** Lines 322 to 345, for the id taken from the queue. *)
Definition worker_take (job_id : string) (now : float) (q : VideoJobQueue)
  : VideoJobQueue * WorkerPc :=
  match jobs q !! job_id with
  | None => (q, AtGet)
  | Some job =>
      if bool_decide (status job = CANCELLED) then (q, AtGet)
      else if is_processing q then (set_queue (push job_id (queue q)) q, AtGet)
      else (mkQueue (queue q)
              (<[job_id := set_started_at now (set_status RUNNING job)]> (jobs q))
              (Some job_id) (worker_function q) true,
            AtTry job_id)
  end.

(** Lines 317 to 345: [Empty] sends the loop back to its head. *)
Definition worker_get (now : float) (q : VideoJobQueue) : VideoJobQueue * WorkerPc :=
  match queue q with
  | [] => (q, AtGet)
  | job_id :: rest => worker_take job_id now (set_queue rest q)
  end.

(** What line 350 to 361 raise: [ValueError] without a worker function,
    [TypeError] when [params] has a [job_stream] of its own (the message
    names the callee, [async_run] of [diffusers_helper.thread_utils], line
    353), or whatever [async_run] raises ([spawn]). *)
Definition start_error (job_id : string) (spawn : option PyExn) (q : VideoJobQueue)
  : option PyExn :=
  match worker_function q with
  | None => Some (Exn ValueError "Worker function not set. Call set_worker_function() first.")
  | Some _ =>
      match jobs q !! job_id with
      | Some job =>
          if bool_decide (is_Some (params job !! "job_stream"))
          then Some (Exn TypeError "diffusers_helper.thread_utils.async_run() got multiple values for keyword argument 'job_stream'")
          else spawn
      | None => spawn
      end
  end.

(** Lines 424 to 427, the handler of the inner [try]. *)
Definition on_error (e : PyExn) (now : float) (job : Job) : Job :=
  set_completed_at now (set_error (exn_str e) (set_status FAILED job)).

(** Lines 433 to 441 *)
Definition settle (job_completed : bool) (now : float) (job : Job) : Job :=
  if bool_decide (status job = RUNNING) then
    set_completed_at now
      (if job_completed then set_status COMPLETED job
       else set_error "Job processing was interrupted" (set_status FAILED job))
  else job.

(** Lines 431 to 446, the whole [finally] block. *)
Definition worker_finally (job_id : string) (job_completed : bool) (now : float)
    (q : VideoJobQueue) : VideoJobQueue :=
  mkQueue (queue q) (alter (settle job_completed now) job_id (jobs q))
    None (worker_function q) false.

(** Lines 454 to 460, the handler of the outer [try]. *)
Definition worker_except (e : PyExn) (now : float) (q : VideoJobQueue) : VideoJobQueue :=
  match current_job q with
  | Some job_id =>
      mkQueue (queue q)
        (alter (λ job, set_completed_at now
                         (set_error ("Worker loop error: " +:+ exn_str e)
                            (set_status FAILED job))) job_id (jobs q))
        None (worker_function q) false
  | None => mkQueue (queue q) (jobs q) None (worker_function q) false
  end.

(** [preview, desc, html = data] *)
Definition unpack3 (data : PyVal) : option (PyVal * PyVal * PyVal) :=
  match data with
  | VList [a; b; c] | VTuple [a; b; c] => Some (a, b, c)
  | VDict [(a, _); (b, _); (c, _)] => Some (a, b, c)
  | VStr (String a (String b (String c EmptyString))) =>
      Some (VStr (String a EmptyString), VStr (String b EmptyString),
            VStr (String c EmptyString))
  | _ => None
  end.

(** Lines 392 to 409, for the event [(flag, data)] read from the stream.
    A failed unpacking is caught by the loop and the event is lost. *)
Definition on_event (job_id : string) (flag : string) (data : PyVal) (q : VideoJobQueue)
  : VideoJobQueue * WorkerPc :=
  if String.eqb flag "file" then (update_job (set_result data) job_id q, AtCheck job_id)
  else if String.eqb flag "progress" then
    match unpack3 data with
    | Some (preview, desc, html) =>
        (update_job (set_progress_data
                       (VDict [(VStr "preview", preview); (VStr "desc", desc);
                               (VStr "html", html)])) job_id q,
         AtCheck job_id)
    | None => (q, AtCheck job_id)
    end
  else if String.eqb flag "end" then (q, AtFinally job_id true None)
  else (q, AtCheck job_id).

(** Lines 387 to 419. Nothing to read: the loop waits and comes back. *)
Definition worker_next (job_id : string) (q : VideoJobQueue) : VideoJobQueue * WorkerPc :=
  match jobs q !! job_id with
  | Some job =>
      match output_queue (stream job) with
      | (flag, data) :: rest =>
          on_event job_id flag data
            (update_job (set_stream (mkStream (input_queue (stream job)) rest)) job_id q)
      | [] => (q, AtCheck job_id)
      end
  | None => (q, AtCheck job_id)
  end.

(** Lines 371 to 375 *)
Definition worker_check (job_id : string) (q : VideoJobQueue) : WorkerPc :=
  match jobs q !! job_id with
  | Some job =>
      if bool_decide (status job = CANCELLED) then AtFinally job_id true None
      else AtNext job_id
  | None => AtNext job_id
  end.

(** ** The threads together *)

(** The queue, [queue.json] and the place of the worker thread. *)
Record World : Type := mkWorld {
  engine : VideoJobQueue;
  queue_json : option FileContent;
  pc : WorkerPc;
}.

Definition boot : World := mkWorld init None AtGet.

(** One atomic step of some thread, with what it reads from outside: the
    clock, [uuid4], the file system, the routine's events. Of the calls that
    report to the console, two may raise ([report]): the ones in the inner
    handler (lines 421 to 423) and in [finally] (line 443), which lead to
    the branches of the loop written for such failures. *)
Inductive Step : Type :=
| SetWorkerFunction (f : N)
| AddJob (lim : Limits) (p : gmap string PyVal) (job_id : string) (now : float)
    (open_ok : bool)
| CancelJob (job_id : string) (now : float)
| UpdateJobProgress (job_id : string) (progress : PyVal)
| Emit (job_id : string) (flag : string) (data : PyVal)
| Get (now : float)
| Start (spawn report : option PyExn) (now : float)
| Check
| Next
| Finally (report : option PyExn) (now : float)
| Except (now : float).

(** The routine of [job_id] pushes an event on the output side. *)
Definition emit (job_id flag : string) (data : PyVal) (q : VideoJobQueue) : VideoJobQueue :=
  update_job (λ job, set_stream (mkStream (input_queue (stream job))
                                   (push (flag, data) (output_queue (stream job)))) job)
    job_id q.

(** [exec s w] is the world after step [s], or [None] when [s] cannot be
    taken in [w]: a worker step away from its place, or an [uuid4] that is
    not fresh. *)
Definition exec (s : Step) (w : World) : option World :=
  let q := engine w in
  match s, pc w with
  | SetWorkerFunction f, _ => Some (mkWorld (set_worker_function f q) (queue_json w) (pc w))
  | AddJob lim p job_id now open_ok, _ =>
      match jobs q !! job_id with
      | None => let r := add_job lim p job_id now open_ok q (queue_json w) in
                Some (mkWorld r.1.2 r.2 (pc w))
      | Some _ => None
      end
  | CancelJob job_id now, _ =>
      Some (mkWorld (cancel_job job_id now q).2 (queue_json w) (pc w))
  | UpdateJobProgress job_id p, _ =>
      Some (mkWorld (update_job_progress job_id p q) (queue_json w) (pc w))
  | Emit job_id flag data, _ =>
      Some (mkWorld (emit job_id flag data q) (queue_json w) (pc w))
  | Get now, AtGet =>
      let r := worker_get now q in Some (mkWorld r.1 (queue_json w) r.2)
  | Start spawn report now, AtTry job_id =>
      match start_error job_id spawn q, report with
      | None, _ => Some (mkWorld q (queue_json w) (AtCheck job_id))
      | Some e, None =>
          Some (mkWorld (update_job (on_error e now) job_id q) (queue_json w)
                  (AtFinally job_id true None))
      | Some _, Some e' =>
          Some (mkWorld q (queue_json w) (AtFinally job_id false (Some e')))
      end
  | Check, AtCheck job_id => Some (mkWorld q (queue_json w) (worker_check job_id q))
  | Next, AtNext job_id =>
      let r := worker_next job_id q in Some (mkWorld r.1 (queue_json w) r.2)
  | Finally None now, AtFinally job_id job_completed raised =>
      Some (mkWorld (worker_finally job_id job_completed now q) (queue_json w)
              (match raised with Some e => AtExcept e | None => AtGet end))
  | Finally (Some e') now, AtFinally job_id job_completed _ =>
      Some (mkWorld (update_job (settle job_completed now) job_id q) (queue_json w)
              (AtExcept e'))
  | Except now, AtExcept e => Some (mkWorld (worker_except e now q) (queue_json w) AtGet)
  | _, _ => None
  end.

Fixpoint run (l : list Step) (w : World) : option World :=
  match l with
  | [] => Some w
  | s :: l => w' ← exec s w; run l w'
  end.

(** The worlds the threads can reach from a new queue. *)
Inductive reachable : World → Prop :=
| reachable_boot : reachable boot
| reachable_step s w w' : reachable w → exec s w = Some w' → reachable w'.

Definition status_of (job_id : string) (w : World) : option JobStatus :=
  status <$> jobs (engine w) !! job_id.

(** * Properties *)

(** ** The order of time stamps

    [time.time()] values are compared with [<], which is a strict order on
    floats. *)

Lemma SFltb_irrefl (x : spec_float) : SFltb x x = false.
Proof.
  unfold SFltb, SFcompare.
  destruct x as [s|s| |s m e]; try destruct s; try reflexivity;
    rewrite Z.compare_refl; fold (Pos.compare m m); rewrite Pos.compare_refl; reflexivity.
Qed.

Lemma SFltb_trans (x y z : spec_float) :
  SFltb x y = true → SFltb y z = true → SFltb x z = true.
Proof.
  unfold SFltb, SFcompare.
  destruct x as [sx|sx| |sx mx ex], y as [sy|sy| |sy my ey], z as [sz|sz| |sz mz ez];
    try destruct sx; try destruct sy; try destruct sz;
    try discriminate; try reflexivity.
  all: fold (Pos.compare mx my); fold (Pos.compare my mz); fold (Pos.compare mx mz).
  all: destruct (Z.compare_spec ex ey), (Z.compare_spec ey ez), (Z.compare_spec ex ez);
    try discriminate; try reflexivity; try lia.
  all: destruct (Pos.compare_spec mx my), (Pos.compare_spec my mz), (Pos.compare_spec mx mz);
    simpl; try discriminate; try reflexivity; lia.
Qed.

Lemma ltb_irrefl (x : float) : PrimFloat.ltb x x = false.
Proof. rewrite ltb_spec. apply SFltb_irrefl. Qed.

Lemma ltb_trans (x y z : float) :
  PrimFloat.ltb x y = true → PrimFloat.ltb y z = true → PrimFloat.ltb x z = true.
Proof. rewrite !ltb_spec. apply SFltb_trans. Qed.

(** ** Positions *)

(** The pending jobs of the table that were created strictly before [t]. *)
Definition ahead (t : float) (m : gmap string Job) : gmap string Job :=
  filter (λ kv, status kv.2 = PENDING ∧ PrimFloat.ltb (created_at kv.2) t = true) m.

(** The world after the steps [l] from a new queue. *)
Definition after (l : list Step) : World := default boot (run l boot).

Lemma position_count (t : float) (m : gmap string Job) :
  map_fold (λ _ j position,
              if bool_decide (status j = PENDING) && PrimFloat.ltb (created_at j) t
              then (position + 1)%Z else position) 1%Z m
  = (1 + Z.of_nat (size (ahead t m)))%Z.
Proof.
  induction m as [|i x m Hi IH] using map_ind.
  - rewrite map_fold_empty. unfold ahead. rewrite map_filter_empty, map_size_empty. done.
  - rewrite map_fold_insert_L; [|intros; repeat case_match; lia|done].
    rewrite IH. unfold ahead.
    destruct (bool_decide (status x = PENDING)) eqn:Hs;
      [apply bool_decide_eq_true in Hs|apply bool_decide_eq_false in Hs];
      destruct (PrimFloat.ltb (created_at x) t) eqn:Ht; simpl.
    + rewrite map_filter_insert_True by done.
      rewrite map_size_insert_None; [lia|].
      apply map_lookup_filter_None_2. by left.
    + rewrite map_filter_insert_not'; [done|simpl; intros [_ ?]; congruence|].
      intros y Hy. congruence.
    + rewrite map_filter_insert_not'; [done|simpl; intros [? _]; done|].
      intros y Hy. congruence.
    + rewrite map_filter_insert_not'; [done|simpl; intros [? _]; done|].
      intros y Hy. congruence.
Qed.

Lemma ahead_mono (t t' : float) (m : gmap string Job) (i : string) (job : Job) :
  m !! i = Some job → status job = PENDING → created_at job = t →
  PrimFloat.ltb t t' = true →
  (size (ahead t m) < size (ahead t' m))%nat.
Proof.
  intros Hi Hs <- Hlt. apply map_subset_size, map_subset_alt. split.
  - apply map_filter_subseteq_ext. intros k x _ [? ?]. split; [done|].
    eapply ltb_trans; eauto.
  - exists i. split.
    + apply map_lookup_filter_None_2. right. intros x Hx [_ Hlt'].
      simpl in Hlt'. rewrite Hi in Hx. injection Hx as <-.
      by rewrite ltb_irrefl in Hlt'.
    + exists job. apply map_lookup_filter_Some_2; [done|]. by split.
Qed.

(** C4, as amended: the position is 0 for a running job, none for an
    unknown or finished job, and for a pending job 1 plus the number of
    pending jobs created strictly earlier (the job itself is not among
    them). Of two pending jobs the one created strictly earlier has the
    strictly smaller position, and two created at the same time have the
    same position: equal time stamps are not told apart. *)
Theorem get_queue_position_by_created_at (q : VideoJobQueue) (job_id : string) :
  (jobs q !! job_id = None → get_queue_position job_id q = None)
  ∧ ∀ job, jobs q !! job_id = Some job →
      (status job = RUNNING → get_queue_position job_id q = Some 0%Z)
      ∧ (status job = COMPLETED ∨ status job = FAILED ∨ status job = CANCELLED →
           get_queue_position job_id q = None)
      ∧ (status job = PENDING →
           get_queue_position job_id q
             = Some (1 + Z.of_nat (size (ahead (created_at job) (jobs q))))%Z
           ∧ ahead (created_at job) (jobs q) !! job_id = None
           ∧ ∀ other job', jobs q !! other = Some job' → status job' = PENDING →
               (PrimFloat.ltb (created_at job) (created_at job') = true →
                  ∃ x y, get_queue_position job_id q = Some x
                         ∧ get_queue_position other q = Some y ∧ (x < y)%Z)
               ∧ (created_at job = created_at job' →
                    get_queue_position job_id q = get_queue_position other q)).
Proof.
  assert (Hpos : ∀ i j, jobs q !! i = Some j → status j = PENDING →
            get_queue_position i q
              = Some (1 + Z.of_nat (size (ahead (created_at j) (jobs q))))%Z).
  { intros i j Hi Hs. unfold get_queue_position. rewrite Hi, Hs.
    by rewrite position_count. }
  split.
  - intros H. unfold get_queue_position. by rewrite H.
  - intros job Hjob. split; [|split].
    + intros Hs. unfold get_queue_position. by rewrite Hjob, Hs.
    + intros Hs. unfold get_queue_position. rewrite Hjob.
      by destruct Hs as [->|[->| ->]].
    + intros Hs. split; [by apply Hpos|]. split.
      * apply map_lookup_filter_None_2. right. intros x Hx [_ Hlt].
        simpl in Hlt. rewrite Hjob in Hx. injection Hx as <-.
        by rewrite ltb_irrefl in Hlt.
      * intros other job' Ho Hs'. split.
        -- intros Hlt. eexists _, _. split; [by apply Hpos|].
           split; [by apply Hpos|].
           pose proof (ahead_mono _ _ _ _ _ Hjob Hs eq_refl Hlt). lia.
        -- intros Heq. rewrite (Hpos _ _ Hjob Hs), (Hpos _ _ Ho Hs'). by rewrite Heq.
Qed.

(** The job [job_id] of the table, for use where the table has it. *)
Definition job_of (job_id : string) (q : VideoJobQueue) : Job :=
  default (mkJob job_id ∅ PENDING 0 None None None VNone VNone None
             (mkStream [] []) VNone VNone None VNone)
          (jobs q !! job_id).

(** Two jobs submitted one after the other, at clock readings 1 and 2. *)
Definition two_jobs : VideoJobQueue :=
  engine (after [AddJob no_limit ∅ "a" 1%float true; AddJob no_limit ∅ "b" 2%float true]).

Lemma get_queue_position_by_created_at_witness :
  get_queue_position "a" two_jobs = Some 1%Z
  ∧ ∃ x y, get_queue_position "a" two_jobs = Some x
           ∧ get_queue_position "b" two_jobs = Some y ∧ (x < y)%Z.
Proof.
  destruct (get_queue_position_by_created_at two_jobs "a") as [_ H].
  destruct (H (job_of "a" two_jobs) ltac:(vm_compute; reflexivity)) as (_ & _ & Hp).
  destruct (Hp ltac:(vm_compute; reflexivity)) as (Hpos & _ & Hother).
  split; [vm_compute; reflexivity|].
  refine (proj1 (Hother "b" (job_of "b" two_jobs) ltac:(vm_compute; reflexivity)
                   ltac:(vm_compute; reflexivity))
            ltac:(vm_compute; reflexivity)).
Defined.

(** Two jobs submitted one after the other at the same clock reading. *)
Definition tied : World :=
  after [AddJob no_limit ∅ "a" 1%float true; AddJob no_limit ∅ "b" 1%float true].

(** C4, as stated, fails: two jobs submitted one after the other at the same
    clock reading are both pending at position 1, the later one is not
    behind the earlier one. *)
Lemma get_queue_position_tie :
  ¬ ∀ (a b : string) (ta tb : float) (w : World),
      run [AddJob no_limit ∅ a ta true; AddJob no_limit ∅ b tb true] boot = Some w →
      ∃ x y, get_queue_position a (engine w) = Some x
             ∧ get_queue_position b (engine w) = Some y ∧ (x < y)%Z.
Proof.
  intros H.
  assert (Hrun : run [AddJob no_limit ∅ "a" 1%float true; AddJob no_limit ∅ "b" 1%float true] boot
                 = Some tied) by (vm_compute; reflexivity).
  assert (Ha : get_queue_position "a" (engine tied) = Some 1%Z)
    by (vm_compute; reflexivity).
  assert (Hb : get_queue_position "b" (engine tied) = Some 1%Z)
    by (vm_compute; reflexivity).
  destruct (H _ _ _ _ _ Hrun) as (x & y & Hx & Hy & Hlt).
  rewrite Ha in Hx. rewrite Hb in Hy. injection Hx as <-. injection Hy as <-. lia.
Qed.

(** ** Cancellation *)

(** C3: [cancel_job] returns [True] exactly when the table has the job and
    it is pending or running. A pending job becomes cancelled with
    [completed_at] set and its stream untouched; a running job becomes
    cancelled with [completed_at] set and ['end'] pushed on the input side
    of its stream. Nothing else changes, and on [False] nothing changes at
    all. *)
Theorem cancel_job_correct (job_id : string) (now : float) (q : VideoJobQueue) :
  ((cancel_job job_id now q).1 = true
   ↔ ∃ job, jobs q !! job_id = Some job ∧ (status job = PENDING ∨ status job = RUNNING))
  ∧ (∀ job, jobs q !! job_id = Some job → status job = PENDING →
       let job' := set_completed_at now (set_status CANCELLED job) in
       (cancel_job job_id now q).2 = set_jobs (<[job_id := job']> (jobs q)) q
       ∧ status job' = CANCELLED ∧ completed_at job' = Some now
       ∧ stream job' = stream job)
  ∧ (∀ job, jobs q !! job_id = Some job → status job = RUNNING →
       let s := mkStream (input_queue (stream job) ++ [VStr "end"])
                         (output_queue (stream job)) in
       let job' := set_completed_at now (set_status CANCELLED (set_stream s job)) in
       (cancel_job job_id now q).2 = set_jobs (<[job_id := job']> (jobs q)) q
       ∧ status job' = CANCELLED ∧ completed_at job' = Some now
       ∧ stream job' = s)
  ∧ (∀ other, other ≠ job_id →
       jobs (cancel_job job_id now q).2 !! other = jobs q !! other)
  ∧ ((cancel_job job_id now q).1 = false → (cancel_job job_id now q).2 = q).
Proof.
  unfold cancel_job.
  destruct (jobs q !! job_id) as [job|] eqn:Hjob.
  2: { simpl. repeat split; try done. intros (? & ? & _). done. }
  split; [|split; [|split; [|split]]].
  - destruct (status job) eqn:Hs; simpl; split; try done; eauto;
      intros (? & [= <-] & [?|?]); congruence.
  - intros ? [= <-] Hs. rewrite Hs. done.
  - intros ? [= <-] Hs. rewrite Hs. done.
  - intros other Hne. destruct (status job); simpl; try done;
      by rewrite lookup_insert_ne.
  - destruct (status job); simpl; done.
Qed.

(** A running job: submitted, then taken by the worker. *)
Definition one_running : VideoJobQueue :=
  engine (after [AddJob no_limit ∅ "a" 1%float true; Get 2%float]).

Lemma cancel_job_correct_witness :
  (cancel_job "a" 3%float one_running).1 = true
  ∧ input_queue (stream (job_of "a" (cancel_job "a" 3%float one_running).2)) = [VStr "end"]
  ∧ status (job_of "a" (cancel_job "a" 3%float one_running).2) = CANCELLED.
Proof.
  destruct (cancel_job_correct "a" 3%float one_running) as (Hiff & _ & Hrun & _ & _).
  split.
  - apply Hiff. exists (job_of "a" one_running).
    split; [vm_compute; reflexivity|right; vm_compute; reflexivity].
  - destruct (Hrun (job_of "a" one_running) ltac:(vm_compute; reflexivity)
                ltac:(vm_compute; reflexivity)) as (Heq & _).
    rewrite Heq. split; vm_compute; reflexivity.
Defined.

(** ** Finalization *)



(** ** Single flight *)

(** The job [i] of the table is running. *)
Definition running (m : gmap string Job) (i : string) : Prop :=
  ∃ job, m !! i = Some job ∧ status job = RUNNING.

(** The job the worker thread holds in its variable [job]. *)
Definition pc_job (p : WorkerPc) : option string :=
  match p with
  | AtTry j | AtCheck j | AtNext j | AtFinally j _ _ => Some j
  | AtGet | AtExcept _ => None
  end.

Definition at_most_one_running (w : World) : Prop :=
  ∀ i j, running (jobs (engine w)) i → running (jobs (engine w)) j → i = j.

(** A running job is the one the worker holds, with the flag set and
    [current_job] referring to it. *)
Definition single_flight (w : World) : Prop :=
  ∀ i, running (jobs (engine w)) i →
    pc_job (pc w) = Some i
    ∧ is_processing (engine w) = true
    ∧ current_job (engine w) = Some i.

Lemma running_alter (f : Job → Job) (k i : string) (m : gmap string Job) :
  (∀ job, status (f job) = RUNNING → status job = RUNNING) →
  running (alter f k m) i → running m i.
Proof.
  intros Hf (job & Hjob & Hs). destruct (decide (k = i)) as [->|Hne].
  - rewrite lookup_alter_eq in Hjob. destruct (m !! i) as [job0|] eqn:Hi; [|done].
    injection Hjob as <-. exists job0. auto.
  - rewrite lookup_alter_ne in Hjob by done. by exists job.
Qed.

Lemma running_alter_stopped (f : Job → Job) (k i : string) (m : gmap string Job) :
  (∀ job, status (f job) ≠ RUNNING) →
  running (alter f k m) i → i ≠ k ∧ running m i.
Proof.
  intros Hf (job & Hjob & Hs). destruct (decide (k = i)) as [->|Hne].
  - rewrite lookup_alter_eq in Hjob. destruct (m !! i) as [job0|] eqn:Hi; [|done].
    injection Hjob as <-. by destruct (Hf job0).
  - rewrite lookup_alter_ne in Hjob by done. split; [done|by exists job].
Qed.

Lemma running_insert (k i : string) (job : Job) (m : gmap string Job) :
  running (<[k := job]> m) i →
  (i = k ∧ status job = RUNNING) ∨ (i ≠ k ∧ running m i).
Proof.
  intros (job' & Hjob & Hs). destruct (decide (k = i)) as [->|Hne].
  - rewrite lookup_insert_eq in Hjob. injection Hjob as <-. by left.
  - rewrite lookup_insert_ne in Hjob by done. right. split; [done|by exists job'].
Qed.

Lemma settle_stopped (job_completed : bool) (now : float) (job : Job) :
  status (settle job_completed now job) ≠ RUNNING.
Proof.
  unfold settle. case_bool_decide; [by destruct job_completed|done].
Qed.

Lemma post_init_status (j j' : Job) : post_init j = Ok j' → status j' = status j.
Proof.
  unfold post_init. intros H.
  repeat match type of H with
         | context [match ?x with _ => _ end] => destruct x eqn:?
         | context [mbind _ ?m] => destruct m eqn:?; simpl in H
         end; simplify_eq; done.
Qed.

Lemma new_job_status (job_id : string) (p : gmap string PyVal) (now : float) (job : Job) :
  new_job job_id p now = Ok job → status job = PENDING.
Proof. intros H. by apply post_init_status in H. Qed.

Lemma running_add_job lim p job_id now open_ok q file i :
  running (jobs (add_job lim p job_id now open_ok q file).1.2) i → running (jobs q) i.
Proof.
  unfold add_job. destruct (new_job job_id p now) as [job|e] eqn:Hnew; simpl; [|done].
  intros [[_ Hs]|[_ ?]]%running_insert; [|done].
  apply new_job_status in Hnew. congruence.
Qed.

Lemma running_cancel_job job_id now q i :
  running (jobs (cancel_job job_id now q).2) i → running (jobs q) i.
Proof.
  unfold cancel_job. destruct (jobs q !! job_id) as [job|]; [|done].
  destruct (status job); simpl; try done;
    by intros [[_ ?]|[_ ?]]%running_insert.
Qed.

Lemma running_update_job (f : Job → Job) job_id q i :
  (∀ job, status (f job) = status job) →
  running (jobs (update_job f job_id q)) i → running (jobs q) i.
Proof.
  intros Hf. unfold update_job. simpl. apply running_alter.
  intros job. by rewrite Hf.
Qed.

(** A step that starts no job and leaves the worker with the same job. *)
Lemma single_flight_keep (w : World) (q' : VideoJobQueue) (file : option FileContent)
    (pc' : WorkerPc) :
  (∀ i, running (jobs q') i → running (jobs (engine w)) i) →
  is_processing q' = is_processing (engine w) →
  current_job q' = current_job (engine w) →
  pc_job pc' = pc_job (pc w) →
  single_flight w → single_flight (mkWorld q' file pc').
Proof.
  intros Hrun Hp Hc Hpc Hw i Hi. simpl in *.
  rewrite Hp, Hc, Hpc. by apply Hw, Hrun.
Qed.

(** A step after which no job is running. *)
Lemma single_flight_idle (q' : VideoJobQueue) (file : option FileContent)
    (pc' : WorkerPc) :
  (∀ i, ¬ running (jobs q') i) → single_flight (mkWorld q' file pc').
Proof. intros Hno i Hi. by destruct (Hno i). Qed.

Lemma single_flight_step (s : Step) (w w' : World) :
  single_flight w → exec s w = Some w' → single_flight w'.
Proof.
  intros Hw Hexec. unfold exec in Hexec.
  destruct s.
  - (* set_worker_function *)
    assert (w' = mkWorld (set_worker_function f (engine w)) (queue_json w) (pc w))
      as -> by (destruct (pc w); congruence).
    by apply (single_flight_keep w).
  - (* add_job *)
    destruct (jobs (engine w) !! job_id) eqn:Hfresh; [by destruct (pc w)|].
    assert (w' = mkWorld (add_job lim p job_id now open_ok (engine w) (queue_json w)).1.2
                   (add_job lim p job_id now open_ok (engine w) (queue_json w)).2 (pc w))
      as -> by (destruct (pc w); congruence).
    apply (single_flight_keep w); try done.
    + intros i. apply running_add_job.
    + unfold add_job. by destruct (new_job _ _ _).
    + unfold add_job. by destruct (new_job _ _ _).
  - (* cancel_job *)
    assert (w' = mkWorld (cancel_job job_id now (engine w)).2 (queue_json w) (pc w))
      as -> by (destruct (pc w); congruence).
    apply (single_flight_keep w); try done.
    + intros i. apply running_cancel_job.
    + unfold cancel_job. destruct (jobs _ !! _) as [job|]; [|done]. by destruct (status job).
    + unfold cancel_job. destruct (jobs _ !! _) as [job|]; [|done]. by destruct (status job).
  - (* update_job_progress *)
    assert (w' = mkWorld (update_job_progress job_id progress (engine w)) (queue_json w) (pc w))
      as -> by (destruct (pc w); congruence).
    apply (single_flight_keep w); try done.
    intros i. by apply running_update_job.
  - (* the routine emits an event *)
    assert (w' = mkWorld (emit job_id flag data (engine w)) (queue_json w) (pc w))
      as -> by (destruct (pc w); congruence).
    apply (single_flight_keep w); try done.
    intros i. by apply running_update_job.
  - (* queue.get and the block that takes the job *)
    destruct (pc w) eqn:Hpc; simplify_eq.
    assert (Hidle : ∀ i, ¬ running (jobs (engine w)) i).
    { intros i Hi. apply Hw in Hi as [Hi _]. by rewrite Hpc in Hi. }
    unfold worker_get. destruct (queue (engine w)) as [|job_id rest].
    { by apply single_flight_idle. }
    unfold worker_take. simpl.
    destruct (jobs (engine w) !! job_id) as [job|] eqn:Hjob; simpl.
    2: { by apply single_flight_idle. }
    case_bool_decide; simpl; [by apply single_flight_idle|].
    destruct (is_processing (engine w)); simpl; [by apply single_flight_idle|].
    intros i [[-> _]|[_ Hi]]%running_insert; [done|by destruct (Hidle i)].
  - (* the start of the routine *)
    destruct (pc w) eqn:Hpc; simplify_eq.
    destruct (start_error job_id spawn (engine w)) as [e|]; [destruct report|];
      simplify_eq; apply (single_flight_keep w); try done; try (by rewrite Hpc).
    intros i. unfold update_job. simpl. apply running_alter. done.
  - (* the head of the drain loop *)
    destruct (pc w) eqn:Hpc; simplify_eq.
    apply (single_flight_keep w); try done.
    rewrite Hpc. unfold worker_check.
    destruct (jobs (engine w) !! job_id) as [job|]; [|done]. by case_bool_decide.
  - (* an event of the stream *)
    destruct (pc w) eqn:Hpc; simplify_eq.
    unfold worker_next.
    destruct (jobs (engine w) !! job_id) as [job|];
      [|by apply (single_flight_keep w); rewrite ?Hpc].
    destruct (output_queue (stream job)) as [|[flag data] rest];
      [by apply (single_flight_keep w); rewrite ?Hpc|].
    unfold on_event.
    repeat case_match; simpl;
      apply (single_flight_keep w); simpl; try done; try (by rewrite Hpc);
      intros i Hi; repeat (apply running_alter in Hi; [|done]); done.
  - (* finally *)
    destruct (pc w) as [| | | |job_id job_completed raised|] eqn:Hpc;
      try (by destruct report).
    assert (Hmine : ∀ i, running (jobs (engine w)) i → i = job_id).
    { intros i Hi. apply Hw in Hi as [Hi _]. rewrite Hpc in Hi. by injection Hi. }
    destruct report as [e'|]; simplify_eq; apply single_flight_idle.
    + intros i [Hne Hi]%running_alter_stopped; [|apply settle_stopped].
      by apply Hmine in Hi.
    + intros i [Hne Hi]%running_alter_stopped; [|apply settle_stopped].
      by apply Hmine in Hi.
  - (* the outer handler *)
    destruct (pc w) eqn:Hpc; simplify_eq.
    assert (Hidle : ∀ i, ¬ running (jobs (engine w)) i).
    { intros i Hi. apply Hw in Hi as [Hi _]. by rewrite Hpc in Hi. }
    apply single_flight_idle. intros i. unfold worker_except.
    destruct (current_job (engine w)); simpl; [|apply Hidle].
    intros [_ Hi]%running_alter_stopped; [by destruct (Hidle i)|done].
Qed.

Lemma single_flight_reachable (w : World) : reachable w → single_flight w.
Proof.
  induction 1 as [|s w w' _ IH Hexec].
  - intros i (job & Hjob & _). done.
  - by eapply single_flight_step.
Qed.

Lemma run_reachable (l : list Step) (w w' : World) :
  reachable w → run l w = Some w' → reachable w'.
Proof.
  revert w. induction l as [|s l IH]; intros w Hw Hrun; simpl in Hrun.
  - by injection Hrun as <-.
  - destruct (exec s w) as [w1|] eqn:Hexec; [|done].
    eapply IH; [|done]. by eapply reachable_step.
Qed.

(** C2: in every world the threads can reach at most one job of the table
    is running, and every step (submit, cancel, progress update, stream
    event, each step of the worker loop) leads to such a world again. The
    running job is the one [current_job] refers to, with [is_processing]
    set: the loop takes a job only while the flag is down, and sets job
    status, flag and reference in one block under the lock. *)
Theorem single_flight_invariant (w : World) :
  reachable w →
  at_most_one_running w
  ∧ (∀ i, running (jobs (engine w)) i →
       is_processing (engine w) = true ∧ current_job (engine w) = Some i)
  ∧ ∀ s w', exec s w = Some w' → at_most_one_running w'.
Proof.
  assert (Hone : ∀ w0, single_flight w0 → at_most_one_running w0).
  { intros w0 H0 i j Hi Hj. apply H0 in Hi as (_ & _ & Hi). apply H0 in Hj as (_ & _ & Hj).
    congruence. }
  intros Hw%single_flight_reachable. split; [by apply Hone|]. split.
  - intros i Hi. by apply Hw in Hi as (_ & ? & ?).
  - intros s w' Hexec. apply Hone. by eapply single_flight_step.
Qed.

Lemma single_flight_invariant_witness :
  at_most_one_running (after [AddJob no_limit ∅ "a" 1%float true; AddJob no_limit ∅ "b" 1%float true;
                              Get 2%float])
  ∧ running (jobs (engine (after [AddJob no_limit ∅ "a" 1%float true; AddJob no_limit ∅ "b" 1%float true;
                                  Get 2%float]))) "a".
Proof.
  split.
  - apply single_flight_invariant.
    apply (run_reachable [AddJob no_limit ∅ "a" 1%float true; AddJob no_limit ∅ "b" 1%float true; Get 2%float]
             boot); [apply reachable_boot|vm_compute; reflexivity].
  - eexists. split; vm_compute; reflexivity.
Defined.

(** ** The state machine *)

(** The edges of the job state machine. *)
Definition legal (a b : JobStatus) : bool :=
  match a, b with
  | PENDING, RUNNING | PENDING, CANCELLED
  | RUNNING, CANCELLED | RUNNING, COMPLETED | RUNNING, FAILED => true
  | _, _ => false
  end.

(** A job is submitted and taken by the worker, no worker function being
    set, and is cancelled before the worker goes on. *)
Definition cancelled_in_flight : World :=
  after [AddJob no_limit ∅ "a" 1%float true; Get 2%float; CancelJob "a" 3%float].

(** C1 does not hold of the code: a status that is already Cancelled is
    changed. The job of [cancelled_in_flight] is cancelled; the worker then
    finds no worker function, and the handler of the inner [try] (lines 424
    to 427) sets the status to Failed without looking at it, where the
    [finally] block only touches a job that is still running. Cancelled to
    Failed is not an edge of the state machine. *)
Theorem cancelled_job_marked_failed :
  reachable cancelled_in_flight
  ∧ status_of "a" cancelled_in_flight = Some CANCELLED
  ∧ ∃ w', exec (Start None None 4%float) cancelled_in_flight = Some w'
          ∧ status_of "a" w' = Some FAILED
          ∧ error (job_of "a" (engine w'))
            = Some "Worker function not set. Call set_worker_function() first."
          ∧ legal CANCELLED FAILED = false.
Proof.
  split.
  { apply (run_reachable [AddJob no_limit ∅ "a" 1%float true; Get 2%float; CancelJob "a" 3%float]
             boot); [apply reachable_boot|vm_compute; reflexivity]. }
  split; [vm_compute; reflexivity|].
  eexists. split; [vm_compute; reflexivity|].
  repeat split; vm_compute; reflexivity.
Qed.

(** ** The serialized record *)

Lemma simplified_params_lookup (p : gmap string PyVal) (k : string) :
  simplified_params p !! k
  = v ← p !! k; if kept k v then Some v else None.
Proof.
  unfold simplified_params.
  induction p as [|i x m Hi IH] using map_ind.
  - by rewrite map_fold_empty, !lookup_empty.
  - rewrite map_fold_insert_L; [|intros; repeat case_match; try done; by apply insert_insert_ne|done].
    destruct (decide (i = k)) as [->|Hne].
    + rewrite lookup_insert_eq. simpl. destruct (kept k x).
      * by rewrite lookup_insert_eq.
      * by rewrite IH, Hi.
    + rewrite (lookup_insert_ne m) by done. rewrite <- IH.
      destruct (kept i x); [by rewrite lookup_insert_ne|done].
Qed.

Lemma limit_hit_spec (lim : Limits) (p : gmap string PyVal) :
  match limit_hit lim p with
  | Some e => (∃ k v, p !! k = Some v ∧ (k ∉ excluded) ∧ lim v = Some e)
  | None => (∀ k v, p !! k = Some v → k ∉ excluded → lim v = None)
  end.
Proof.
  unfold limit_hit.
  apply (map_fold_weak_ind
           (λ r m, match r with
                   | Some e => (∃ k v, m !! k = Some v ∧ (k ∉ excluded) ∧ lim v = Some e)
                   | None => (∀ k v, m !! k = Some v → k ∉ excluded → lim v = None)
                   end)).
  - intros k v Hk. by rewrite lookup_empty in Hk.
  - intros i x m r Hi IH.
    assert (Hkeep : match r with
                    | Some e => (∃ k v, <[i:=x]> m !! k = Some v ∧ (k ∉ excluded)
                                        ∧ lim v = Some e)
                    | None => True
                    end).
    { destruct r as [e|]; [|done]. destruct IH as (k & v & Hk & Hne & Hl).
      exists k, v. rewrite lookup_insert_ne by congruence. done. }
    case_bool_decide as Hex.
    + destruct r as [e|]; [done|]. intros k v Hk Hne.
      destruct (decide (i = k)) as [->|Hik]; [done|].
      rewrite lookup_insert_ne in Hk by done. by eapply IH.
    + destruct (lim x) as [e|] eqn:Hx.
      * exists i, x. by rewrite lookup_insert_eq.
      * destruct r as [e|]; [done|]. intros k v Hk Hne.
        destruct (decide (i = k)) as [->|Hik].
        -- rewrite lookup_insert_eq in Hk. by injection Hk as <-.
        -- rewrite lookup_insert_ne in Hk by done. by eapply IH.
Qed.

Lemma limit_hit_None (lim : Limits) (p : gmap string PyVal) :
  (∀ k v, p !! k = Some v → k ∉ excluded → lim v = None) → limit_hit lim p = None.
Proof.
  intros H. pose proof (limit_hit_spec lim p) as Hs.
  destruct (limit_hit lim p) as [e|]; [|done].
  destruct Hs as (k & v & Hk & Hne & Hl). by rewrite (H k v Hk Hne) in Hl.
Qed.

(** The body returns when the loop over the params meets no limit and the
    LoRA block does not raise. *)
Lemma serialize_body_Ok (lim : Limits) (job : Job) (r : gmap string PyVal) :
  serialize_body lim job = Ok r ↔
  limit_hit lim (params job) = None
  ∧ ∃ sp, with_loras (params job) (simplified_params (params job)) = Ok sp
          ∧ r = <["params" := dict_of_map sp]> (simplified job).
Proof.
  unfold serialize_body, params_loop.
  destruct (limit_hit lim (params job)) as [e|]; simpl.
  - split; [done|]. by intros [? _].
  - destruct (with_loras _ _) as [sp|e]; simpl.
    + split.
      * intros [= <-]. eauto.
      * intros (_ & sp' & [= <-] & ->). done.
    + split; [done|]. by intros (_ & sp' & ? & _).
Qed.


Lemma list_index_lt (x : PyVal) (l : list PyVal) (i : nat) :
  list_index x l = Some i → (i < length l)%nat.
Proof.
  revert i. induction l as [|y l IH]; intros i; simpl; [done|].
  destruct (py_eq y x); [intros [= <-]; lia|].
  destruct (list_index x l) as [j|]; simpl; [|done].
  intros [= <-]. specialize (IH j eq_refl). lia.
Qed.















(** Reading a dict value made of a map is reading the map. *)
Definition entries (v : PyVal) : PyDict :=
  match v with
  | VDict d => d
  | _ => []
  end.

Lemma dict_of_map_lookup (m : gmap string PyVal) (k : string) :
  dict_get (VStr k) (entries (dict_of_map m)) = m !! k.
Proof.
  unfold dict_of_map. simpl.
  rewrite <- (list_to_map_to_list m) at 2.
  induction (map_to_list m) as [|[k' v] l IH]; simpl; [done|].
  destruct (String.eqb k' k) eqn:E.
  - apply String.eqb_eq in E as ->. by rewrite lookup_insert_eq.
  - apply String.eqb_neq in E. by rewrite lookup_insert_ne.
Qed.

(** The job with other params. *)
Definition with_params (p : gmap string PyVal) (j : Job) : Job :=
  mkJob (id j) p (status j) (created_at j) (started_at j) (completed_at j)
    (error j) (result j) (progress_data j) (queue_position j) (stream j)
    (input_image j) (latent_type j) (thumbnail j) (generation_type j).

(** The keys the LoRA block reads. *)
Definition lora_keys : list string := ["selected_loras"; "lora_values"; "lora_loaded_names"].

Lemma simplified_params_drop (p : gmap string PyVal) (k : string) (v : PyVal) :
  p !! k = Some v → json_serializable v = false →
  simplified_params p = simplified_params (delete k p).
Proof.
  intros Hk Hv. apply map_eq. intros i. rewrite !simplified_params_lookup.
  destruct (decide (i = k)) as [->|Hne].
  - rewrite Hk, lookup_delete_eq. simpl. unfold kept. by rewrite Hv, andb_false_r.
  - by rewrite lookup_delete_ne.
Qed.

Lemma with_loras_ext (p p' sp : gmap string PyVal) :
  (∀ k, k ∈ lora_keys → p !! k = p' !! k) → with_loras p sp = with_loras p' sp.
Proof.
  intros H. unfold with_loras, param_list.
  rewrite <- !H; [done|unfold lora_keys; set_solver..].
Qed.

Lemma with_loras_lookup (p sp sp' : gmap string PyVal) (k : string) :
  with_loras p sp = Ok sp' → k ≠ "loras" → sp' !! k = sp !! k.
Proof.
  unfold with_loras. intros H Hk.
  destruct (p !! "selected_loras") as [sel|]; [|by simplify_eq].
  destruct (truth sel) as [[]|]; simpl in H; [|by simplify_eq|done].
  destruct (lora_loop _ _ _ _); simpl in H; [|done].
  simplify_eq. by rewrite lookup_insert_ne.
Qed.

(** The keys of the full record. *)
Definition record_keys : gset string :=
  {["id"; "status"; "created_at"; "started_at"; "completed_at"; "error";
    "result"; "queue_position"; "generation_type"; "params"]}.

Lemma serialize_job_shape (lim : Limits) (job : Job) :
  match serialize_body lim job with
  | Ok r => serialize_job lim job = r ∧ dom r = record_keys
  | Raise e => serialize_job lim job = minimal job e
  end.
Proof.
  unfold serialize_job. destruct (serialize_body lim job) as [r|e] eqn:Hr; [|done].
  split; [done|]. apply serialize_body_Ok in Hr as (_ & sp & _ & ->).
  unfold simplified, record_keys. rewrite !dom_insert_L, dom_empty_L. set_solver.
Qed.

(** X1: [serialize_job] returns a record for every job, whatever the limits
    of the interpreter, and the record has the job's id and status. It is
    the full record, with its ten keys, or the minimal one: id, status and
    an error note that begins with ['Error serializing: ']. When the body
    returns, the params of the record are the entries of the job's params
    whose key is not excluded and for which [json.dumps] has an encoding
    (and ['loras']). When [json.dumps] meets no limit on the entries of the
    params, an entry it has no encoding for is left out: unless its key is
    one the LoRA block reads, the record is the one of the job without that
    entry. *)
Theorem serialize_job_total (lim : Limits) (job : Job) :
  serialize_job lim job !! "id" = Some (VStr (id job))
  ∧ serialize_job lim job !! "status" = Some (VStr (value (status job)))
  ∧ (dom (serialize_job lim job) = record_keys
     ∨ (dom (serialize_job lim job) = ({["id"; "status"; "error"]} : gset string)
        ∧ ∃ msg, serialize_job lim job !! "error"
                 = Some (VStr ("Error serializing: " +:+ msg))))
  ∧ (∀ r, serialize_body lim job = Ok r →
       serialize_job lim job = r
       ∧ ∃ sp, r !! "params" = Some (dict_of_map sp)
               ∧ ∀ k, k ≠ "loras" →
                      sp !! k = v ← params job !! k; if kept k v then Some v else None)
  ∧ ((∀ k v, params job !! k = Some v → k ∉ excluded → lim v = None) →
     ∀ k v, params job !! k = Some v → json_serializable v = false → k ∉ lora_keys →
       serialize_job lim job
       = serialize_job lim (with_params (delete k (params job)) job)).
Proof.
  pose proof (serialize_job_shape lim job) as Hshape.
  split; [|split; [|split; [|split]]].
  - destruct (serialize_body lim job) as [r|e] eqn:Hr.
    + destruct Hshape as [-> _]. apply serialize_body_Ok in Hr as (_ & sp & _ & ->).
      by rewrite lookup_insert_ne.
    + by rewrite Hshape.
  - destruct (serialize_body lim job) as [r|e] eqn:Hr.
    + destruct Hshape as [-> _]. apply serialize_body_Ok in Hr as (_ & sp & _ & ->).
      by rewrite lookup_insert_ne.
    + by rewrite Hshape.
  - destruct (serialize_body lim job) as [r|e].
    + left. by destruct Hshape as [-> ?].
    + right. rewrite Hshape. split; [|by eexists].
      unfold minimal. rewrite !dom_insert_L, dom_empty_L. set_solver.
  - intros r Hr. rewrite Hr in Hshape. destruct Hshape as [Hjob _]. split; [done|].
    apply serialize_body_Ok in Hr as (_ & sp & Hsp & ->).
    exists sp. split; [by rewrite lookup_insert_eq|].
    intros k Hk. rewrite (with_loras_lookup _ _ _ _ Hsp Hk).
    apply simplified_params_lookup.
  - intros Hlim k v Hk Hv Hlora.
    assert (H1 : limit_hit lim (params job) = None) by (by apply limit_hit_None).
    assert (H2 : limit_hit lim (delete k (params job)) = None).
    { apply limit_hit_None. intros k' v' Hk' Hne.
      destruct (decide (k = k')) as [->|Hkk'].
      - by rewrite lookup_delete_eq in Hk'.
      - rewrite lookup_delete_ne in Hk' by done. by eapply Hlim. }
    unfold serialize_job, serialize_body, params_loop, with_params. simpl.
    rewrite H1, H2. simpl. rewrite <- (simplified_params_drop _ _ _ Hk Hv).
    rewrite (with_loras_ext (params job) (delete k (params job))); [done|].
    intros i Hi. rewrite lookup_delete_ne; [done|]. by intros ->.
Qed.

(** A job with a callback among its params, and a job whose
    [selected_loras] is an array. *)
Definition callback_job : Job :=
  mkJob "a" (<["seed" := VInt 5]> (<["callback" := VObj 7]> ∅))
    PENDING 1 None None None VNone (VDict []) None (mkStream [] []) VNone VNone None
    (VStr "Original").

(** An interpreter with the default limit of 4300 digits, met here by an int
    that is an entry of the params. *)
Definition digits_limit : Limits :=
  λ v, match v with
       | VInt z =>
           if (Z.abs z <? 10 ^ 4300)%Z then None
           else Some (Exn ValueError "Exceeds the limit (4300 digits) for integer string conversion; use sys.set_int_max_str_digits() to increase the limit")
       | _ => None
       end.

Definition long_int_job : Job :=
  mkJob "b" (<["seed" := VInt (10 ^ 5000)]> ∅)
    RUNNING 1 (Some 2%float) None None VNone (VDict []) None (mkStream [] []) VNone VNone None
    (VStr "Original").

Lemma serialize_job_total_witness :
  serialize_job no_limit callback_job
  = serialize_job no_limit (with_params (delete "callback" (params callback_job)) callback_job)
  ∧ serialize_job digits_limit long_int_job !! "id" = Some (VStr "b")
  ∧ serialize_job digits_limit long_int_job !! "status" = Some (VStr "running")
  ∧ dom (serialize_job digits_limit long_int_job)
    = ({["id"; "status"; "error"]} : gset string).
Proof.
  split; [|split; [|split]].
  - destruct (serialize_job_total no_limit callback_job) as (_ & _ & _ & _ & H).
    apply (H ltac:(done) "callback" (VObj 7)); [vm_compute; reflexivity|reflexivity|].
    unfold lora_keys.
    repeat (apply not_elem_of_cons; split; [done|]). apply not_elem_of_nil.
  - apply (serialize_job_total digits_limit long_int_job).
  - apply (serialize_job_total digits_limit long_int_job).
  - destruct (serialize_job_total digits_limit long_int_job) as (_ & _ & [H|[H _]] & _).
    + assert (E : serialize_job digits_limit long_int_job !! "params" = None)
        by (vm_compute; reflexivity).
      assert (Hin : "params" ∈ dom (serialize_job digits_limit long_int_job)).
      { rewrite H. unfold record_keys. set_solver. }
      apply elem_of_dom in Hin as [x Hx]. rewrite E in Hx. discriminate Hx.
    + exact H.
Defined.

(** X2: when the body of [serialize_job] does not raise, the record has the
    job's id, status, the three timestamps, error, result, queue position
    and generation type, and the projection of the params, in which the keys
    [input_image], [end_frame_image] and [stream] are absent. The record has
    these ten keys and no other, so no thumbnail, and it does not depend on
    the job's thumbnail. *)
Theorem serialized_record (lim : Limits) (job : Job) (r : gmap string PyVal) :
  serialize_body lim job = Ok r →
  serialize_job lim job = r
  ∧ r !! "id" = Some (VStr (id job))
  ∧ r !! "status" = Some (VStr (value (status job)))
  ∧ r !! "created_at" = Some (VFloat (created_at job))
  ∧ r !! "started_at" = Some (opt_float (started_at job))
  ∧ r !! "completed_at" = Some (opt_float (completed_at job))
  ∧ r !! "error" = Some (opt_str (error job))
  ∧ r !! "result" = Some (result job)
  ∧ r !! "queue_position" = Some (opt_int (queue_position job))
  ∧ r !! "generation_type" = Some (generation_type job)
  ∧ (∃ sp, r !! "params" = Some (dict_of_map sp)
           ∧ ∀ k, k ∈ excluded →
                  sp !! k = None ∧ dict_get (VStr k) (entries (dict_of_map sp)) = None)
  ∧ dom r = ({["id"; "status"; "created_at"; "started_at"; "completed_at"; "error";
               "result"; "queue_position"; "generation_type"; "params"]} : gset string)
  ∧ r !! "thumbnail" = None
  ∧ ∀ t, serialize_job lim (set_thumbnail t job) = r.
Proof.
  intros Hr.
  assert (Hjob : serialize_job lim job = r) by (unfold serialize_job; by rewrite Hr).
  split; [done|].
  assert (Hthumb : ∀ t, serialize_job lim (set_thumbnail t job) = r).
  { intros t. by rewrite <- Hjob. }
  apply serialize_body_Ok in Hr as (_ & sp & Hsp & ->). unfold simplified.
  repeat (split; [by (repeat (rewrite lookup_insert_ne by done); rewrite lookup_insert_eq)|]).
  split; [|split; [|split; [|done]]].
  - exists sp. split; [by rewrite lookup_insert_eq|].
    intros k Hk.
    assert (sp !! k = None) as Hnone.
    { rewrite (with_loras_lookup _ _ _ _ Hsp).
      - rewrite simplified_params_lookup. destruct (params job !! k); [|done].
        simpl. unfold kept. by rewrite bool_decide_eq_true_2.
      - intros ->. unfold excluded in Hk.
        repeat (apply elem_of_cons in Hk as [Hk|Hk]; [done|]).
        by apply elem_of_nil in Hk. }
    split; [done|]. by rewrite dict_of_map_lookup.
  - rewrite !dom_insert_L, dom_empty_L. set_solver.
  - by repeat (rewrite lookup_insert_ne by done).
Qed.

(** A job with an input image, a stream handle and a thumbnail. *)
Definition image_job : Job :=
  mkJob "a"
    (<["input_image" := VArray 1 None]>
     (<["stream" := VObj 2]> (<["seed" := VInt 5]> (<["model_type" := VStr "F1"]> ∅))))
    COMPLETED 1 (Some 2%float) (Some 3%float) None (VStr "out.mp4") (VDict []) None
    (mkStream [] []) (VArray 1 None) VNone (Some (ArrayPreview 1)) (VStr "F1").

Lemma serialized_record_witness :
  serialize_job no_limit image_job !! "generation_type" = Some (VStr "F1")
  ∧ serialize_job no_limit image_job !! "thumbnail" = None
  ∧ serialize_job no_limit (set_thumbnail None image_job) = serialize_job no_limit image_job.
Proof.
  destruct (serialized_record no_limit image_job (serialize_job no_limit image_job))
    as (_ & _ & _ & _ & _ & _ & _ & _ & _ & Hg & _ & _ & Ht & Hi).
  - vm_compute. reflexivity.
  - split; [exact Hg|]. split; [exact Ht|]. apply Hi.
Defined.

(** ** Submission *)

(** The params from which [Job(...)] can be built: an input image that is
    an array is one PIL renders, and, when there is no input image, the
    latent type is hashable. *)
Definition constructible (p : gmap string PyVal) : bool :=
  match p !! "input_image" with
  | Some VNone | None =>
      match p !! "latent_type" with
      | Some t => hashable t
      | None => true
      end
  | Some (VArray _ fault) => bool_decide (fault = None)
  | Some _ => true
  end.

Lemma new_job_constructible (job_id : string) (p : gmap string PyVal) (now : float) :
  constructible p = true ↔ ∃ job, new_job job_id p now = Ok job.
Proof.
  unfold constructible, new_job, post_init, color_map_get, image_thumbnail.
  cbn [params input_image latent_type thumbnail].
  destruct (p !! "input_image") as [v|].
  - destruct v as [| | | | | | | |a fault|]; cbn [mbind Res_bind]; eauto;
      try (split; [eauto|done]).
    + destruct (p !! "latent_type") as [t|]; [|split; [eauto|done]].
      destruct (hashable t); cbn; split; eauto; try done. by intros [? ?].
    + destruct fault; cbn; split; eauto; try done. by intros [? ?].
  - destruct (p !! "latent_type") as [t|]; [|split; [eauto|done]].
    destruct (hashable t); cbn; split; eauto; try done. by intros [? ?].
Qed.

Lemma new_job_fields (job_id : string) (p : gmap string PyVal) (now : float) (job : Job) :
  new_job job_id p now = Ok job →
  id job = job_id ∧ params job = p ∧ status job = PENDING ∧ created_at job = now
  ∧ started_at job = None ∧ completed_at job = None ∧ error job = None
  ∧ generation_type job = default (VStr "Original") (p !! "model_type").
Proof.
  unfold new_job, post_init, color_map_get, image_thumbnail.
  cbn [params input_image latent_type thumbnail id status created_at started_at
       completed_at error result progress_data queue_position stream generation_type].
  intros H.
  destruct (p !! "input_image") as [v|].
  - destruct v as [| | | | | | | |a fault|]; cbn in H; try (by simplify_eq).
    + destruct (p !! "latent_type") as [t|]; [|by simplify_eq].
      destruct (hashable t); cbn in H; by simplify_eq.
    + destruct fault; cbn in H; by simplify_eq.
  - destruct (p !! "latent_type") as [t|]; [|by simplify_eq].
    destruct (hashable t); cbn in H; by simplify_eq.
Qed.

(** [add_job] does not return for all params: it raises [TypeError] on
    params whose [latent_type] is a list, which [color_map.get] cannot
    hash. *)
Lemma add_job_raises :
  ¬ ∀ (lim : Limits) (p : gmap string PyVal) (job_id : string) (now : float)
      (open_ok : bool) (q : VideoJobQueue) (file : option FileContent),
      (add_job lim p job_id now open_ok q file).1.1 = Ok job_id.
Proof.
  intros H.
  specialize (H no_limit (<["latent_type" := VList []]> ∅) "a" 1%float true init None).
  assert (E : (add_job no_limit (<["latent_type" := VList []]> ∅) "a" 1%float true init None).1.1
              = Raise (Exn TypeError "unhashable type: 'list'"))
    by (vm_compute; reflexivity).
  rewrite E in H. discriminate H.
Qed.

(** X3: when the job can be built from the params, [add_job]
    returns the new id, whether or not [queue.json] can be written; the job
    is in the table under that id, pending, created now, with the params and
    with the generation type [params['model_type']], ['Original'] when the
    key is absent; the id is at the back of the queue and the other jobs are
    as before. When the file cannot be opened it is left as it was. *)
Theorem add_job_returns_id (lim : Limits) (p : gmap string PyVal) (job_id : string)
    (now : float) (open_ok : bool) (q : VideoJobQueue) (file : option FileContent) :
  constructible p = true →
  ∃ job q' file',
    add_job lim p job_id now open_ok q file = (Ok job_id, q', file')
    ∧ new_job job_id p now = Ok job
    ∧ jobs q' !! job_id = Some job
    ∧ id job = job_id ∧ params job = p ∧ status job = PENDING ∧ created_at job = now
    ∧ generation_type job = default (VStr "Original") (p !! "model_type")
    ∧ queue q' = queue q ++ [job_id]
    ∧ (∀ i, i ≠ job_id → jobs q' !! i = jobs q !! i)
    ∧ current_job q' = current_job q ∧ is_processing q' = is_processing q
    ∧ file' = save_queue_to_json lim open_ok q' file
    ∧ (open_ok = false → file' = file).
Proof.
  intros Hp. apply (new_job_constructible job_id p now) in Hp as [job Hjob].
  destruct (new_job_fields _ _ _ _ Hjob) as (Hid & Hparams & Hstatus & Hcreated & _ & _ & _ & Hgen).
  unfold add_job. rewrite Hjob. eexists job, _, _.
  split; [reflexivity|]. split; [done|]. simpl.
  split; [by rewrite lookup_insert_eq|].
  repeat (split; [done|]).
  split; [intros i Hi; by rewrite lookup_insert_ne|].
  repeat (split; [done|]).
  by intros ->.
Qed.

Lemma add_job_returns_id_witness :
  ∃ job q' file',
    add_job no_limit (<["model_type" := VStr "F1"]> ∅) "a" 1%float false init None
    = (Ok "a", q', file')
    ∧ jobs q' !! "a" = Some job ∧ status job = PENDING
    ∧ generation_type job = VStr "F1" ∧ file' = None.
Proof.
  destruct (add_job_returns_id no_limit (<["model_type" := VStr "F1"]> ∅) "a" 1%float false
              init None)
    as (job & q' & file' & Hadd & _ & Hjob & _ & _ & Hstatus & _ & Hgen & _ & _ & _ & _ & _ & Hfile).
  - vm_compute. reflexivity.
  - exists job, q', file'. split; [exact Hadd|]. split; [exact Hjob|].
    split; [exact Hstatus|]. split; [exact Hgen|]. apply Hfile. reflexivity.
Defined.

(** The params have no input image and no latent type. *)
Definition no_input (p : gmap string PyVal) : Prop :=
  (p !! "input_image" = None ∨ p !! "input_image" = Some VNone)
  ∧ p !! "latent_type" = None.

(** The params have an input image that is neither [None], an array nor a
    string. *)
Definition other_input (p : gmap string PyVal) : Prop :=
  ∃ v, p !! "input_image" = Some v
       ∧ v ≠ VNone ∧ (∀ a image, v ≠ VArray a image) ∧ (∀ s, v ≠ VStr s).

(** X4: for params with no input image (the key absent or [None]) and no
    [latent_type] key, and for params whose input image is neither an array
    nor a string, [add_job] returns the id and the job it stores has no
    thumbnail. *)
Theorem add_job_no_thumbnail (lim : Limits) (p : gmap string PyVal) (job_id : string)
    (now : float) (open_ok : bool) (q : VideoJobQueue) (file : option FileContent) :
  no_input p ∨ other_input p →
  ∃ job q' file',
    add_job lim p job_id now open_ok q file = (Ok job_id, q', file')
    ∧ jobs q' !! job_id = Some job
    ∧ thumbnail job = None.
Proof.
  intros H.
  assert (∃ job, new_job job_id p now = Ok job ∧ thumbnail job = None) as (job & Hjob & Ht).
  { unfold new_job, post_init. simpl.
    destruct H as [[[Hi|Hi] Hl]|(v & Hi & Hnone & Harray & Hstr)]; rewrite Hi.
    - rewrite Hl. eauto.
    - rewrite Hl. eauto.
    - destruct v; simpl; eauto; [done|by destruct (Hstr s)|by destruct (Harray addr fault)]. }
  unfold add_job. rewrite Hjob. eexists job, _, _.
  split; [reflexivity|]. simpl. by rewrite lookup_insert_eq.
Qed.

Lemma add_job_no_thumbnail_witness :
  ∃ job q' file',
    add_job no_limit (<["input_image" := VInt 3]> (<["latent_type" := VStr "Black"]> ∅))
      "a" 1%float true init None = (Ok "a", q', file')
    ∧ jobs q' !! "a" = Some job ∧ thumbnail job = None.
Proof.
  apply add_job_no_thumbnail. right. exists (VInt 3).
  split; [vm_compute; reflexivity|]. repeat split; intros; discriminate.
Defined.

(** ** The bookkeeping of the queue *)

(** The time stamps and the error text a job of each status has. *)
Definition record_ok (job : Job) : Prop :=
  match status job with
  | PENDING => started_at job = None ∧ completed_at job = None ∧ error job = None
  | RUNNING => is_Some (started_at job) ∧ completed_at job = None ∧ error job = None
  | COMPLETED =>
      is_Some (started_at job) ∧ is_Some (completed_at job) ∧ error job = None
  | FAILED =>
      is_Some (started_at job) ∧ is_Some (completed_at job) ∧ is_Some (error job)
  | CANCELLED => is_Some (completed_at job) ∧ error job = None
  end.

(** What the queue, the table, [current_job], [is_processing], the place of
    the worker and [queue.json] have to do with each other. *)
Record wf (w : World) : Prop := mkWf {
  wf_nodup : NoDup (queue (engine w));
  wf_queued : ∀ i, i ∈ queue (engine w) →
    ∃ job, jobs (engine w) !! i = Some job
           ∧ (status job = PENDING ∨ status job = CANCELLED)
           ∧ current_job (engine w) ≠ Some i;
  wf_current : ∀ i, current_job (engine w) = Some i →
    ∃ job, jobs (engine w) !! i = Some job ∧ is_Some (started_at job);
  wf_idle : pc w = AtGet →
    is_processing (engine w) = false ∧ current_job (engine w) = None;
  wf_busy : ∀ j, pc_job (pc w) = Some j →
    current_job (engine w) = Some j ∧ is_processing (engine w) = true;
  wf_table : ∀ i job, jobs (engine w) !! i = Some job → id job = i ∧ record_ok job;
  wf_file : ∀ d i r, queue_json w = Some (Written d) → d !! i = Some r →
    is_Some (jobs (engine w) !! i) ∧ r !! "id" = Some (VStr i);
}.

(** What a change [job'] of the job [job] under the key [k] has to respect. *)
Definition local (w : World) (k : string) (job job' : Job) : Prop :=
  id job' = id job
  ∧ (record_ok job → (current_job (engine w) = Some k → is_Some (started_at job)) →
     record_ok job')
  ∧ (is_Some (started_at job) → is_Some (started_at job'))
  ∧ (status job' = PENDING → status job = PENDING)
  ∧ (current_job (engine w) = Some k
     ∨ (status job = PENDING ∨ status job = CANCELLED →
        status job' = PENDING ∨ status job' = CANCELLED)).

Lemma wf_alter (w : World) (f : Job → Job) (k : string) (m' : gmap string Job)
    (c' : option string) (fn : option N) (p' : bool) (pc' : WorkerPc) :
  wf w →
  m' = alter f k (jobs (engine w)) →
  c' = current_job (engine w) ∨ c' = None →
  (pc' = AtGet → p' = false ∧ c' = None) →
  (∀ j, pc_job pc' = Some j → c' = Some j ∧ p' = true) →
  (∀ job, jobs (engine w) !! k = Some job → local w k job (f job)) →
  wf (mkWorld (mkQueue (queue (engine w)) m' c' fn p') (queue_json w) pc').
Proof.
  intros [Hnodup Hqueued Hcurrent Hidle Hbusy Htable Hfile] -> Hc Hget Hjob Hf.
  split; simpl; try done.
  - intros i Hi. destruct (Hqueued i Hi) as (job & Hi' & Hs & Hcur).
    assert (c' ≠ Some i) by (destruct Hc as [-> | ->]; done).
    destruct (decide (k = i)) as [->|Hne].
    + exists (f job). rewrite lookup_alter_eq, Hi'. split; [done|].
      destruct (Hf job Hi') as (_ & _ & _ & _ & [Hk|Hk]); [done|]. auto.
    + exists job. by rewrite lookup_alter_ne.
  - intros i Hi. assert (current_job (engine w) = Some i) as Hcur
      by (destruct Hc as [-> | ->]; done).
    destruct (Hcurrent i Hcur) as (job & Hi' & Hst).
    destruct (decide (k = i)) as [->|Hne].
    + exists (f job). rewrite lookup_alter_eq, Hi'. split; [done|].
      destruct (Hf job Hi') as (_ & _ & Hp & _). by apply Hp.
    + exists job. by rewrite lookup_alter_ne.
  - intros i job' Hi. destruct (decide (k = i)) as [->|Hne].
    + rewrite lookup_alter_eq in Hi.
      destruct (jobs (engine w) !! i) as [job|] eqn:Hi'; [|done].
      injection Hi as <-. destruct (Hf job eq_refl) as (Hid & Hok & _).
      destruct (Htable i job Hi') as [Hid' Hok']. split; [congruence|].
      apply Hok; [done|]. intros Hcur.
      destruct (Hcurrent i Hcur) as (job0 & Hi0 & Hst). congruence.
    + rewrite lookup_alter_ne in Hi by done. by eapply Htable.
  - intros d i r Hd Hi. destruct (Hfile d i r Hd Hi) as [Hjob' Hr]. split; [|done].
    destruct (decide (k = i)) as [->|Hne].
    + rewrite lookup_alter_eq. destruct Hjob' as [job ->]. by eexists.
    + by rewrite lookup_alter_ne.
Qed.

(** The changes of a job that leave status, time stamps and error alone. *)
Lemma local_neutral (w : World) (k : string) (job job' : Job) :
  id job' = id job → status job' = status job → started_at job' = started_at job →
  completed_at job' = completed_at job → error job' = error job →
  local w k job job'.
Proof.
  intros Hid Hs Hst Hc He. unfold local, record_ok. rewrite Hid, Hs, Hst, Hc, He.
  repeat split; auto.
Qed.

(** A step that leaves the table alone. *)
Lemma wf_keep (w : World) (c' : option string) (fn : option N) (p' : bool)
    (pc' : WorkerPc) :
  wf w →
  c' = current_job (engine w) ∨ c' = None →
  (pc' = AtGet → p' = false ∧ c' = None) →
  (∀ j, pc_job pc' = Some j → c' = Some j ∧ p' = true) →
  wf (mkWorld (mkQueue (queue (engine w)) (jobs (engine w)) c' fn p') (queue_json w) pc').
Proof.
  intros Hw Hc Hget Hjob.
  apply (wf_alter w (λ job, job) "" (jobs (engine w))); try done.
  - symmetry. by apply alter_id.
  - intros job _. by apply local_neutral.
Qed.

(** What [cancel_job] does to the job. *)
Definition cancel_of (now : float) (job : Job) : Job :=
  match status job with
  | PENDING => set_completed_at now (set_status CANCELLED job)
  | RUNNING =>
      set_completed_at now
        (set_status CANCELLED
           (set_stream (mkStream (push (VStr "end") (input_queue (stream job)))
                          (output_queue (stream job))) job))
  | _ => job
  end.

Lemma alter_insert_lookup (f : Job → Job) (k : string) (job : Job) (m : gmap string Job) :
  m !! k = Some job → <[k := f job]> m = alter f k m.
Proof.
  intros Hk. apply map_eq. intros i. destruct (decide (k = i)) as [->|Hne].
  - by rewrite lookup_insert_eq, lookup_alter_eq, Hk.
  - by rewrite lookup_insert_ne, lookup_alter_ne.
Qed.

Lemma cancel_job_alter (k : string) (now : float) (q : VideoJobQueue) :
  (cancel_job k now q).2
  = mkQueue (queue q) (alter (cancel_of now) k (jobs q)) (current_job q)
      (worker_function q) (is_processing q).
Proof.
  unfold cancel_job. destruct (jobs q !! k) as [job|] eqn:Hk.
  - destruct (status job) eqn:Hs; simpl.
    + unfold set_jobs. f_equal.
      rewrite <- (alter_insert_lookup (cancel_of now) k job) by done.
      unfold cancel_of. by rewrite Hs.
    + unfold set_jobs. f_equal.
      rewrite <- (alter_insert_lookup (cancel_of now) k job) by done.
      unfold cancel_of. by rewrite Hs.
    + rewrite alter_id; [by destruct q|].
      intros x Hx. rewrite Hk in Hx. injection Hx as <-. unfold cancel_of. by rewrite Hs.
    + rewrite alter_id; [by destruct q|].
      intros x Hx. rewrite Hk in Hx. injection Hx as <-. unfold cancel_of. by rewrite Hs.
    + rewrite alter_id; [by destruct q|].
      intros x Hx. rewrite Hk in Hx. injection Hx as <-. unfold cancel_of. by rewrite Hs.
  - simpl. rewrite alter_id; [by destruct q|]. intros x Hx. by rewrite Hk in Hx.
Qed.

Lemma local_cancel_of (w : World) (k : string) (now : float) (job : Job) :
  local w k job (cancel_of now job).
Proof.
  unfold local, cancel_of, record_ok.
  destruct (status job) eqn:Hs; simpl; rewrite ?Hs; repeat split; auto; try tauto;
    try (intros (? & ? & ?) _; by eauto); try discriminate.
Qed.

Lemma local_on_error (w : World) (k : string) (e : PyExn) (now : float) (job : Job) :
  current_job (engine w) = Some k → local w k job (on_error e now job).
Proof.
  intros Hk. unfold local, on_error, record_ok. simpl.
  repeat split; auto; try done; by eexists.
Qed.

Lemma local_settle (w : World) (k : string) (c : bool) (now : float) (job : Job) :
  current_job (engine w) = Some k → local w k job (settle c now job).
Proof.
  intros Hk. unfold local, settle. case_bool_decide as Hs; [|tauto].
  split; [by destruct c|]. split; [|split; [by destruct c|split; [by destruct c|by left]]].
  unfold record_ok. rewrite Hs. intros (Hst & _ & He) _.
  destruct c; simpl; repeat split; try done; by eexists.
Qed.

Lemma local_crash (w : World) (k : string) (msg : string) (now : float) (job : Job) :
  current_job (engine w) = Some k →
  local w k job (set_completed_at now (set_error msg (set_status FAILED job))).
Proof.
  intros Hk. unfold local, record_ok. simpl.
  repeat split; auto; try done; by eexists.
Qed.

Lemma wf_ext (w w' : World) :
  engine w' = engine w → queue_json w' = queue_json w → pc w' = pc w → wf w → wf w'.
Proof.
  destruct w, w'. simpl. by intros -> -> ->.
Qed.

Lemma alter_self (f : Job → Job) (k : string) (m : gmap string Job) :
  (∀ job, m !! k = Some job → f job = job) → alter f k m = m.
Proof. intros H. by apply alter_id. Qed.

Lemma serialize_job_id (lim : Limits) (job : Job) :
  serialize_job lim job !! "id" = Some (VStr (id job)).
Proof.
  pose proof (serialize_job_shape lim job) as Hshape.
  destruct (serialize_body lim job) as [r|e] eqn:Hr.
  - destruct Hshape as [-> _]. apply serialize_body_Ok in Hr as (_ & sp & _ & ->).
    by rewrite lookup_insert_ne.
  - by rewrite Hshape.
Qed.

Lemma wf_add_job (w : World) (lim : Limits) (p : gmap string PyVal) (k : string)
    (now : float) (open_ok : bool) :
  wf w → jobs (engine w) !! k = None →
  wf (mkWorld (add_job lim p k now open_ok (engine w) (queue_json w)).1.2
        (add_job lim p k now open_ok (engine w) (queue_json w)).2 (pc w)).
Proof.
  intros Hw Hfresh. unfold add_job.
  destruct (new_job k p now) as [job|e] eqn:Hnew; [|by apply (wf_ext w)].
  destruct (new_job_fields _ _ _ _ Hnew) as (Hid & _ & Hs & _ & Hst & Hc & He & _).
  destruct Hw as [Hnodup Hqueued Hcurrent Hidle Hbusy Htable Hfile].
  assert (Hk : k ∉ queue (engine w)).
  { intros Hk. destruct (Hqueued k Hk) as (? & ? & _). congruence. }
  split; cbn [engine queue_json pc fst snd queue jobs current_job is_processing
              set_queue set_jobs].
  - unfold push. apply NoDup_app. split; [done|]. split; [|apply NoDup_singleton].
    intros i Hi ->%list_elem_of_singleton. done.
  - unfold push. intros i [Hi| ->%list_elem_of_singleton]%elem_of_app.
    + destruct (Hqueued i Hi) as (job' & Hi' & Hs' & Hcur). exists job'.
      rewrite lookup_insert_ne by congruence. done.
    + exists job. rewrite lookup_insert_eq. split; [done|]. split; [by left|].
      intros Hcur. destruct (Hcurrent k Hcur) as (? & ? & _). congruence.
  - intros i Hcur. destruct (Hcurrent i Hcur) as (job' & Hi & Hst').
    exists job'. rewrite lookup_insert_ne by congruence. done.
  - done.
  - done.
  - intros i job' Hi. destruct (decide (k = i)) as [->|Hne].
    + rewrite lookup_insert_eq in Hi. injection Hi as <-. split; [done|].
      unfold record_ok. by rewrite Hs.
    + rewrite lookup_insert_ne in Hi by done. by eapply Htable.
  - intros d i r Hd Hi. unfold save_queue_to_json in Hd.
    cbn [jobs set_queue set_jobs] in Hd.
    assert (Hgrow : is_Some (jobs (engine w) !! i) → is_Some (<[k := job]> (jobs (engine w)) !! i)).
    { intros Hsome. destruct (decide (k = i)) as [->|Hne];
        [by rewrite lookup_insert_eq|by rewrite lookup_insert_ne]. }
    destruct open_ok.
    + case_bool_decide; [|done].
      destruct (lim _); [done|]. injection Hd as <-.
      rewrite lookup_fmap in Hi.
      destruct (<[k := job]> (jobs (engine w)) !! i) as [job'|] eqn:Hi'; [|done].
      injection Hi as <-. split; [by eexists|].
      rewrite serialize_job_id. do 2 f_equal.
      destruct (decide (k = i)) as [->|Hne].
      * rewrite lookup_insert_eq in Hi'. by injection Hi' as <-.
      * rewrite lookup_insert_ne in Hi' by done. by apply (Htable i job').
    + destruct (Hfile d i r Hd Hi) as [Hsome Hr]. auto.
Qed.

Lemma wf_get (w : World) (now : float) :
  wf w → pc w = AtGet →
  wf (mkWorld (worker_get now (engine w)).1 (queue_json w) (worker_get now (engine w)).2).
Proof.
  intros Hw Hpc.
  pose proof Hw as [Hnodup Hqueued Hcurrent Hidle Hbusy Htable Hfile].
  destruct (Hidle Hpc) as [Hproc Hcur0].
  unfold worker_get. destruct (queue (engine w)) as [|k rest] eqn:Hq.
  { by apply (wf_ext w). }
  destruct (Hqueued k) as (job & Hk & Hs & _); [by left|].
  apply NoDup_cons in Hnodup as [Hk_rest Hnodup'].
  unfold worker_take. cbn [jobs set_queue is_processing queue current_job worker_function].
  rewrite Hk, Hproc.
  destruct Hs as [Hs|Hs].
  - rewrite bool_decide_eq_false_2 by (by rewrite Hs).
    split; cbn [engine queue_json pc fst snd queue jobs current_job is_processing].
    + done.
    + intros i Hi. destruct (Hqueued i) as (job' & Hi' & Hs' & _); [by right|].
      exists job'. rewrite lookup_insert_ne by (by intros ->).
      split; [done|]. split; [done|]. intros [= ->]. done.
    + intros i [= <-]. eexists. rewrite lookup_insert_eq. split; [done|]. by eexists.
    + done.
    + intros j [= <-]. done.
    + intros i job' Hi. destruct (decide (k = i)) as [->|Hne].
      * rewrite lookup_insert_eq in Hi. injection Hi as <-.
        destruct (Htable i job Hk) as [Hid Hok]. split; [done|].
        unfold record_ok in *. rewrite Hs in Hok. destruct Hok as (_ & ? & ?).
        simpl. split; [by eexists|done].
      * rewrite lookup_insert_ne in Hi by done. by eapply Htable.
    + intros d i r Hd Hi. destruct (Hfile d i r Hd Hi) as [Hsome Hr]. split; [|done].
      destruct (decide (k = i)) as [->|Hne];
        [by rewrite lookup_insert_eq|by rewrite lookup_insert_ne].
  - rewrite bool_decide_eq_true_2 by done.
    split; cbn [engine queue_json pc fst snd queue jobs current_job is_processing
                set_queue]; try done.
    intros i Hi. apply Hqueued. by right.
Qed.

(** A step of the worker that keeps its job. *)
Lemma wf_pc (w : World) (pc' : WorkerPc) :
  wf w →
  (pc' = AtGet → pc w = AtGet) →
  (∀ j, pc_job pc' = Some j → pc_job (pc w) = Some j) →
  wf (mkWorld (engine w) (queue_json w) pc').
Proof.
  intros Hw Hget Hjob. destruct w as [[l m c fn p] file pc0].
  apply (wf_keep (mkWorld (mkQueue l m c fn p) file pc0) c fn p pc' Hw); simpl in *.
  - by left.
  - intros ->. by apply (wf_idle _ Hw), Hget.
  - intros j Hj. by apply (wf_busy _ Hw), Hjob.
Qed.

(** The steps that change one job of the table. *)
Ltac wf_by_alter w k Hw :=
  refine (wf_alter w _ k _ _ _ _ _ Hw eq_refl (or_introl eq_refl) _ _ _);
  [try done; try (intros ->; done)
  |try done; try (by intros ? [= <-])
  |intros ? _].

Lemma wf_step (s : Step) (w w' : World) : wf w → exec s w = Some w' → wf w'.
Proof.
  intros Hw Hexec. unfold exec in Hexec.
  pose proof (wf_idle w Hw) as Hidle. pose proof (wf_busy w Hw) as Hbusy.
  destruct s.
  - (* set_worker_function *)
    assert (w' = mkWorld (set_worker_function f (engine w)) (queue_json w) (pc w))
      as -> by (destruct (pc w); congruence).
    apply (wf_keep w); [done|by left|done|done].
  - (* add_job *)
    destruct (jobs (engine w) !! job_id) eqn:Hfresh; [by destruct (pc w)|].
    assert (w' = mkWorld (add_job lim p job_id now open_ok (engine w) (queue_json w)).1.2
                   (add_job lim p job_id now open_ok (engine w) (queue_json w)).2 (pc w))
      as -> by (destruct (pc w); congruence).
    by apply wf_add_job.
  - (* cancel_job *)
    assert (w' = mkWorld (cancel_job job_id now (engine w)).2 (queue_json w) (pc w))
      as -> by (destruct (pc w); congruence).
    rewrite cancel_job_alter.
    wf_by_alter w job_id Hw.
    apply local_cancel_of.
  - (* update_job_progress *)
    assert (w' = mkWorld (update_job_progress job_id progress (engine w)) (queue_json w) (pc w))
      as -> by (destruct (pc w); congruence).
    wf_by_alter w job_id Hw.
    by apply local_neutral.
  - (* the routine emits an event *)
    assert (w' = mkWorld (emit job_id flag data (engine w)) (queue_json w) (pc w))
      as -> by (destruct (pc w); congruence).
    wf_by_alter w job_id Hw.
    by apply local_neutral.
  - (* queue.get and the block that takes the job *)
    destruct (pc w) eqn:Hpc; simplify_eq. by apply wf_get.
  - (* the start of the routine *)
    destruct (pc w) eqn:Hpc; simplify_eq.
    destruct (Hbusy job_id eq_refl) as [Hcur Hproc].
    destruct (start_error job_id spawn (engine w)) as [e|]; [destruct report|];
      simplify_eq.
    + apply wf_pc; rewrite ?Hpc; done.
    + wf_by_alter w job_id Hw.
      by apply local_on_error.
    + apply wf_pc; rewrite ?Hpc; done.
  - (* the head of the drain loop *)
    destruct (pc w) eqn:Hpc; simplify_eq.
    assert (Hjob : pc_job (worker_check job_id (engine w)) = Some job_id).
    { unfold worker_check. destruct (jobs (engine w) !! job_id) as [job|]; [|done].
      by case_bool_decide. }
    apply wf_pc; [done| |by rewrite Hpc, Hjob].
    intros Hget. by rewrite Hget in Hjob.
  - (* an event of the stream *)
    destruct (pc w) eqn:Hpc; simplify_eq.
    destruct (Hbusy job_id eq_refl) as [Hcur Hproc].
    assert (Hsame : wf (mkWorld (engine w) (queue_json w) (AtCheck job_id))).
    { apply wf_pc; rewrite ?Hpc; done. }
    unfold worker_next.
    destruct (jobs (engine w) !! job_id) as [job|]; [|done].
    destruct (output_queue (stream job)) as [|[flag data] rest]; [done|].
    assert (Hread : wf (mkWorld (update_job (set_stream (mkStream (input_queue (stream job)) rest))
                                   job_id (engine w)) (queue_json w) (AtCheck job_id))).
    { wf_by_alter w job_id Hw.
      by apply local_neutral. }
    unfold on_event.
    destruct (String.eqb flag "file").
    { wf_by_alter (mkWorld (update_job (set_stream (mkStream (input_queue (stream job)) rest))
                              job_id (engine w)) (queue_json w) (AtCheck job_id))
        job_id Hread.
      by apply local_neutral. }
    destruct (String.eqb flag "progress").
    { destruct (unpack3 data) as [[[preview desc] html]|]; [|done].
      wf_by_alter (mkWorld (update_job (set_stream (mkStream (input_queue (stream job)) rest))
                              job_id (engine w)) (queue_json w) (AtCheck job_id))
        job_id Hread.
      by apply local_neutral. }
    destruct (String.eqb flag "end"); [|done].
    wf_by_alter w job_id Hw.
    by apply local_neutral.
  - (* finally *)
    destruct (pc w) as [| | | |job_id job_completed raised|] eqn:Hpc;
      try (by destruct report).
    destruct (Hbusy job_id eq_refl) as [Hcur Hproc].
    destruct report as [e'|]; simplify_eq.
    + wf_by_alter w job_id Hw.
      by apply local_settle.
    + refine (wf_alter w _ job_id _ _ _ _ _ Hw eq_refl (or_intror eq_refl) _ _ _).
      * by destruct raised.
      * by destruct raised.
      * intros job _. by apply local_settle.
  - (* the outer handler *)
    destruct (pc w) eqn:Hpc; simplify_eq.
    unfold worker_except. destruct (current_job (engine w)) as [k|] eqn:Hcur.
    + refine (wf_alter w _ k _ _ _ _ _ Hw eq_refl (or_intror eq_refl) _ _ _); [done..|].
      intros job _. by apply local_crash.
    + apply (wf_keep w); try done. by right.
Qed.

Lemma wf_boot : wf boot.
Proof.
  split; simpl; try done.
  - apply NoDup_nil_2.
  - intros i Hi. by apply elem_of_nil in Hi.
Qed.

Lemma wf_reachable (w : World) : reachable w → wf w.
Proof.
  induction 1 as [|s w w' _ IH Hexec]; [apply wf_boot|by eapply wf_step].
Qed.

(** ** What a step does to a job *)

(** The fields of a job that are given at its creation. *)
Definition same_identity (job job' : Job) : Prop :=
  id job' = id job ∧ params job' = params job ∧ created_at job' = created_at job
  ∧ input_image job' = input_image job ∧ latent_type job' = latent_type job
  ∧ thumbnail job' = thumbnail job ∧ generation_type job' = generation_type job
  ∧ queue_position job' = queue_position job.

(** One step on the job under the key [k]: the status is as before, or has
    moved along an edge of the state machine, or has been set to failed by
    a handler of the worker, whose current job it is. *)
Definition evolves (w : World) (k : string) (job job' : Job) : Prop :=
  same_identity job job'
  ∧ (is_Some (started_at job) → started_at job' = started_at job)
  ∧ (status job' = status job
     ∨ legal (status job) (status job') = true
     ∨ (status job' = FAILED ∧ current_job (engine w) = Some k)).

(** The table after a step: one job has changed, or one has been added. *)
Definition table_step (w w' : World) : Prop :=
  (∃ f k, jobs (engine w') = alter f k (jobs (engine w))
          ∧ (∀ job, jobs (engine w) !! k = Some job → evolves w k job (f job))
          ∧ (current_job (engine w') = current_job (engine w)
             ∨ current_job (engine w') = None
             ∨ (current_job (engine w') = Some k
                ∧ ∃ job, jobs (engine w) !! k = Some job ∧ status job = PENDING)))
  ∨ (∃ k job p now, jobs (engine w) !! k = None ∧ new_job k p now = Ok job
                    ∧ jobs (engine w') = <[k := job]> (jobs (engine w))
                    ∧ current_job (engine w') = current_job (engine w)).

Lemma evolves_neutral (w : World) (k : string) (job job' : Job) :
  same_identity job job' → status job' = status job → started_at job' = started_at job →
  evolves w k job job'.
Proof. intros Hid Hs Hst. split; [done|]. split; [done|by left]. Qed.

Lemma table_keep (w w' : World) :
  jobs (engine w') = jobs (engine w) →
  current_job (engine w') = current_job (engine w) ∨ current_job (engine w') = None →
  table_step w w'.
Proof.
  intros Hjobs Hcur. left. exists (λ job, job), "". split; [|split].
  - rewrite Hjobs. symmetry. by apply alter_id.
  - intros job _. by apply evolves_neutral.
  - tauto.
Qed.

Lemma alter_twice (f g : Job → Job) (k : string) (m : gmap string Job) :
  alter f k (alter g k m) = alter (f ∘ g) k m.
Proof.
  apply map_eq. intros i. destruct (decide (k = i)) as [->|Hne].
  - rewrite !lookup_alter_eq. by destruct (m !! i).
  - by rewrite !lookup_alter_ne.
Qed.

Lemma evolves_cancel_of (w : World) (k : string) (now : float) (job : Job) :
  evolves w k job (cancel_of now job).
Proof.
  unfold evolves, cancel_of, same_identity.
  destruct (status job) eqn:Hs; simpl; rewrite ?Hs; auto 20.
Qed.

Lemma evolves_settle (w : World) (k : string) (c : bool) (now : float) (job : Job) :
  evolves w k job (settle c now job).
Proof.
  unfold evolves, settle, same_identity. case_bool_decide as Hs; [|auto 20].
  destruct c; simpl; rewrite Hs; auto 20.
Qed.

Lemma table_step_exec (s : Step) (w w' : World) :
  wf w → exec s w = Some w' → table_step w w'.
Proof.
  intros Hw Hexec. unfold exec in Hexec.
  pose proof (wf_idle w Hw) as Hidle. pose proof (wf_busy w Hw) as Hbusy.
  destruct s.
  - (* set_worker_function *)
    assert (w' = mkWorld (set_worker_function f (engine w)) (queue_json w) (pc w))
      as -> by (destruct (pc w); congruence).
    apply table_keep; [done|by left].
  - (* add_job *)
    destruct (jobs (engine w) !! job_id) eqn:Hfresh; [by destruct (pc w)|].
    assert (w' = mkWorld (add_job lim p job_id now open_ok (engine w) (queue_json w)).1.2
                   (add_job lim p job_id now open_ok (engine w) (queue_json w)).2 (pc w))
      as -> by (destruct (pc w); congruence).
    unfold add_job. destruct (new_job job_id p now) as [job|e] eqn:Hnew.
    + right. by exists job_id, job, p, now.
    + apply table_keep; [done|by left].
  - (* cancel_job *)
    assert (w' = mkWorld (cancel_job job_id now (engine w)).2 (queue_json w) (pc w))
      as -> by (destruct (pc w); congruence).
    rewrite cancel_job_alter. left. exists (cancel_of now), job_id.
    split; [done|]. split; [|by left]. intros job _. apply evolves_cancel_of.
  - (* update_job_progress *)
    assert (w' = mkWorld (update_job_progress job_id progress (engine w)) (queue_json w) (pc w))
      as -> by (destruct (pc w); congruence).
    left. exists (set_progress_data progress), job_id.
    split; [done|]. split; [|by left]. intros job _. by apply evolves_neutral.
  - (* the routine emits an event *)
    assert (w' = mkWorld (emit job_id flag data (engine w)) (queue_json w) (pc w))
      as -> by (destruct (pc w); congruence).
    left. eexists _, job_id.
    split; [done|]. split; [|by left]. intros job _. by apply evolves_neutral.
  - (* queue.get and the block that takes the job *)
    destruct (pc w) eqn:Hpc; simplify_eq.
    destruct (Hidle eq_refl) as [Hproc Hcur].
    unfold worker_get. destruct (queue (engine w)) as [|k rest] eqn:Hq.
    { apply table_keep; [done|by left]. }
    destruct (wf_queued w Hw k) as (job & Hk & Hs & _); [rewrite Hq; by left|].
    unfold worker_take. cbn [jobs set_queue is_processing queue current_job worker_function].
    rewrite Hk, Hproc. destruct Hs as [Hs|Hs].
    + rewrite bool_decide_eq_false_2 by (by rewrite Hs).
      left. exists (λ job, set_started_at now (set_status RUNNING job)), k. simpl.
      split; [exact (alter_insert_lookup
                       (λ job, set_started_at now (set_status RUNNING job)) k job _ Hk)|].
      split.
      * intros job' Hk'. assert (job' = job) as -> by congruence.
        destruct (wf_table w Hw k job Hk) as [_ Hok].
        unfold record_ok in Hok. rewrite Hs in Hok. destruct Hok as (Hst & _ & _).
        split; [done|]. split; [rewrite Hst; by intros [? ?]|].
        right. left. simpl. by rewrite Hs.
      * right. right. eauto.
    + rewrite bool_decide_eq_true_2 by done. apply table_keep; [done|by left].
  - (* the start of the routine *)
    destruct (pc w) eqn:Hpc; simplify_eq.
    destruct (Hbusy job_id eq_refl) as [Hcur Hproc].
    destruct (start_error job_id spawn (engine w)) as [e|]; [destruct report|];
      simplify_eq.
    + apply table_keep; [done|by left].
    + left. exists (on_error e now), job_id. split; [done|]. split; [|by left].
      intros job _. split; [done|]. split; [done|]. by right; right.
    + apply table_keep; [done|by left].
  - (* the head of the drain loop *)
    destruct (pc w) eqn:Hpc; simplify_eq. apply table_keep; [done|by left].
  - (* an event of the stream *)
    destruct (pc w) eqn:Hpc; simplify_eq.
    unfold worker_next.
    destruct (jobs (engine w) !! job_id) as [job|]; [|apply table_keep; [done|by left]].
    destruct (output_queue (stream job)) as [|[flag data] rest];
      [apply table_keep; [done|by left]|].
    unfold on_event.
    destruct (String.eqb flag "file").
    { left. eexists _, job_id. simpl. split; [apply alter_twice|]. split; [|by left].
      intros job' _. by apply evolves_neutral. }
    destruct (String.eqb flag "progress").
    { destruct (unpack3 data) as [[[preview desc] html]|].
      - left. eexists _, job_id. simpl. split; [apply alter_twice|]. split; [|by left].
        intros job' _. by apply evolves_neutral.
      - left. eexists _, job_id. simpl. split; [done|]. split; [|by left].
        intros job' _. by apply evolves_neutral. }
    destruct (String.eqb flag "end").
    + left. eexists _, job_id. simpl. split; [done|]. split; [|by left].
      intros job' _. by apply evolves_neutral.
    + left. eexists _, job_id. simpl. split; [done|]. split; [|by left].
      intros job' _. by apply evolves_neutral.
  - (* finally *)
    destruct (pc w) as [| | | |job_id job_completed raised|] eqn:Hpc;
      try (by destruct report).
    destruct report as [e'|]; simplify_eq.
    + left. exists (settle job_completed now), job_id. split; [done|]. split; [|by left].
      intros job _. apply evolves_settle.
    + left. exists (settle job_completed now), job_id. split; [done|].
      split; [|by right; left]. intros job _. apply evolves_settle.
  - (* the outer handler *)
    destruct (pc w) eqn:Hpc; simplify_eq.
    unfold worker_except. destruct (current_job (engine w)) as [k|] eqn:Hcur.
    + left. eexists _, k. simpl. split; [done|]. split; [|by right; left].
      intros job _. split; [done|]. split; [done|]. right; right. by rewrite Hcur.
    + apply table_keep; [done|by left].
Qed.

Lemma step_forward (s : Step) (w w' : World) (i : string) (job : Job) :
  wf w → exec s w = Some w' → jobs (engine w) !! i = Some job →
  ∃ job', jobs (engine w') !! i = Some job' ∧ evolves w i job job'
          ∧ (current_job (engine w') = Some i →
             current_job (engine w) = Some i ∨ status job = PENDING).
Proof.
  intros Hw Hexec Hi.
  destruct (table_step_exec s w w' Hw Hexec)
    as [(f & k & Hjobs & Hf & Hcur)|(k & job0 & p & now & Hk & Hnew & Hjobs & Hcur)].
  - rewrite Hjobs. destruct (decide (k = i)) as [->|Hne].
    + exists (f job). rewrite lookup_alter_eq, Hi. split; [done|]. split; [by apply Hf|].
      intros Hc. destruct Hcur as [Hcur|[Hcur|[_ (job1 & Hi1 & Hs)]]];
        [left; congruence|congruence|right; congruence].
    + exists job. rewrite lookup_alter_ne by done.
      split; [done|]. split; [by apply evolves_neutral|].
      intros Hc. destruct Hcur as [Hcur|[Hcur|[Hcur _]]];
        [left; congruence|congruence|congruence].
  - rewrite Hjobs. exists job. rewrite lookup_insert_ne by congruence.
    split; [done|]. split; [by apply evolves_neutral|]. intros Hc. left. congruence.
Qed.

Lemma step_backward (s : Step) (w w' : World) (i : string) (job' : Job) :
  wf w → exec s w = Some w' → jobs (engine w') !! i = Some job' →
  jobs (engine w) !! i = None → ∃ p now, new_job i p now = Ok job'.
Proof.
  intros Hw Hexec Hi' Hi.
  destruct (table_step_exec s w w' Hw Hexec)
    as [(f & k & Hjobs & Hf & Hcur)|(k & job0 & p & now & Hk & Hnew & Hjobs & Hcur)].
  - rewrite Hjobs in Hi'. destruct (decide (k = i)) as [->|Hne].
    + by rewrite lookup_alter_eq, Hi in Hi'.
    + rewrite lookup_alter_ne in Hi' by done. congruence.
  - rewrite Hjobs in Hi'. destruct (decide (k = i)) as [->|Hne].
    + rewrite lookup_insert_eq in Hi'. injection Hi' as <-. eauto.
    + rewrite lookup_insert_ne in Hi' by done. congruence.
Qed.

Lemma same_identity_trans (a b c : Job) :
  same_identity a b → same_identity b c → same_identity a c.
Proof.
  unfold same_identity. intros (? & ? & ? & ? & ? & ? & ? & ?) (? & ? & ? & ? & ? & ? & ? & ?).
  repeat split; congruence.
Qed.

Lemma new_job_queue_position (job_id : string) (p : gmap string PyVal) (now : float)
    (job : Job) :
  new_job job_id p now = Ok job → queue_position job = None.
Proof.
  unfold new_job, post_init, color_map_get, image_thumbnail.
  cbn [params input_image latent_type thumbnail id status created_at started_at
       completed_at error result progress_data queue_position stream generation_type].
  intros H.
  destruct (p !! "input_image") as [v|].
  - destruct v as [| | | | | | | |a fault|]; cbn in H; try (by simplify_eq).
    + destruct (p !! "latent_type") as [t|]; [|by simplify_eq].
      destruct (hashable t); cbn in H; by simplify_eq.
    + destruct fault; cbn in H; by simplify_eq.
  - destruct (p !! "latent_type") as [t|]; [|by simplify_eq].
    destruct (hashable t); cbn in H; by simplify_eq.
Qed.

Lemma run_wf (l : list Step) (w w' : World) : wf w → run l w = Some w' → wf w'.
Proof.
  revert w. induction l as [|s l IH]; intros w Hw Hrun; simpl in Hrun.
  - by injection Hrun as <-.
  - destruct (exec s w) as [w1|] eqn:Hexec; [|done].
    eapply IH; [|done]. by eapply wf_step.
Qed.

Lemma run_forward (l : list Step) (w w' : World) (i : string) (job : Job) :
  wf w → run l w = Some w' → jobs (engine w) !! i = Some job →
  ∃ job', jobs (engine w') !! i = Some job' ∧ same_identity job job'
          ∧ (status job ≠ PENDING → status job ≠ RUNNING →
             current_job (engine w) ≠ Some i →
             status job' = status job ∧ current_job (engine w') ≠ Some i).
Proof.
  revert w job. induction l as [|s l IH]; intros w job Hw Hrun Hi; simpl in Hrun.
  - injection Hrun as <-. exists job. by repeat split.
  - destruct (exec s w) as [w1|] eqn:Hexec; [|done].
    destruct (step_forward s w w1 i job Hw Hexec Hi) as (job1 & Hi1 & (Hid & _ & Hs) & Hcur).
    destruct (IH w1 job1 (wf_step s w w1 Hw Hexec) Hrun Hi1) as (job' & Hi' & Hid' & Hfin).
    exists job'. split; [done|]. split; [by eapply same_identity_trans|].
    intros Hp Hr Hc.
    assert (status job1 = status job) as Hs1.
    { destruct Hs as [Hs|[Hs|[_ Hs]]]; [done| |done].
      destruct (status job); try done; by destruct (status job1). }
    assert (current_job (engine w1) ≠ Some i) as Hc1.
    { intros Hc1. by destruct (Hcur Hc1). }
    rewrite <- Hs1. apply Hfin; congruence.
Qed.

(** X6: In every world the threads reach, the queue holds each id at most
    once, and every id in it belongs to a job of the table that is pending
    or was cancelled while it waited, and is not the job the worker works
    on: a job that is running, completed or failed is not in the queue. (A
    pending job need not be in the queue: the worker takes the id out at
    line 317, before it takes the lock.) *)
Theorem queue_holds_waiting_jobs (w : World) :
  reachable w →
  NoDup (queue (engine w))
  ∧ (∀ i, i ∈ queue (engine w) →
       ∃ job, jobs (engine w) !! i = Some job
              ∧ (status job = PENDING ∨ status job = CANCELLED)
              ∧ current_job (engine w) ≠ Some i)
  ∧ (∀ i job, jobs (engine w) !! i = Some job →
       status job = RUNNING ∨ status job = COMPLETED ∨ status job = FAILED →
       i ∉ queue (engine w)).
Proof.
  intros Hw%wf_reachable. split; [apply (wf_nodup w Hw)|].
  split; [apply (wf_queued w Hw)|].
  intros i job Hi Hs Hin. destruct (wf_queued w Hw i Hin) as (job' & Hi' & Hs' & _).
  assert (job' = job) as -> by congruence.
  destruct Hs as [Hs|[Hs|Hs]], Hs' as [Hs'|Hs']; congruence.
Qed.

(** Two jobs are submitted, the first is taken by the worker, the second is
    cancelled. *)
Definition busy_world : World :=
  after [AddJob no_limit ∅ "a" 1%float true; AddJob no_limit ∅ "b" 2%float true; Get 3%float;
         CancelJob "b" 4%float].

(** The world after the steps [l] can be reached. *)
Ltac reach l :=
  apply (run_reachable l boot); [apply reachable_boot|vm_compute; reflexivity].

Lemma queue_holds_waiting_jobs_witness :
  queue (engine busy_world) = ["b"] ∧ NoDup (queue (engine busy_world))
  ∧ ∃ job, jobs (engine busy_world) !! "b" = Some job
           ∧ (status job = PENDING ∨ status job = CANCELLED)
           ∧ current_job (engine busy_world) ≠ Some "b".
Proof.
  split; [vm_compute; reflexivity|].
  destruct (queue_holds_waiting_jobs busy_world) as (Hnodup & Hqueued & _).
  - reach [AddJob no_limit ∅ "a" 1%float true; AddJob no_limit ∅ "b" 2%float true; Get 3%float;
           CancelJob "b" 4%float].
  - split; [exact Hnodup|]. apply Hqueued.
    assert (queue (engine busy_world) = ["b"]) as -> by (vm_compute; reflexivity).
    apply elem_of_cons. by left.
Defined.

(** X7: Whenever the worker waits at [queue.get], [is_processing] is down and
    there is no current job. So the branch that puts the id back (lines 333
    to 339) is never taken: the worker removes the head of the queue, whose
    job is in the table; a pending job is started (running, [started_at],
    [current_job], [is_processing]), a cancelled one is dropped and left as
    it is. Jobs start in the order of the queue. *)
Theorem worker_takes_head (w : World) (now : float) (k : string) (rest : list string) :
  reachable w → pc w = AtGet → queue (engine w) = k :: rest →
  is_processing (engine w) = false ∧ current_job (engine w) = None
  ∧ ∃ job, jobs (engine w) !! k = Some job
      ∧ queue (worker_get now (engine w)).1 = rest
      ∧ (status job = PENDING ∨ status job = CANCELLED)
      ∧ (status job = PENDING →
           worker_get now (engine w)
           = (mkQueue rest
                (<[k := set_started_at now (set_status RUNNING job)]> (jobs (engine w)))
                (Some k) (worker_function (engine w)) true,
              AtTry k))
      ∧ (status job = CANCELLED →
           worker_get now (engine w) = (set_queue rest (engine w), AtGet)).
Proof.
  intros Hw%wf_reachable Hpc Hq.
  destruct (wf_idle w Hw Hpc) as [Hproc Hcur]. split; [done|]. split; [done|].
  destruct (wf_queued w Hw k) as (job & Hk & Hs & _); [rewrite Hq; apply elem_of_cons; by left|].
  exists job. split; [done|].
  unfold worker_get, worker_take. rewrite Hq.
  cbn [jobs set_queue is_processing queue current_job worker_function].
  rewrite Hk, Hproc. destruct Hs as [Hs|Hs].
  - rewrite bool_decide_eq_false_2 by (by rewrite Hs).
    split; [done|]. split; [by left|]. split; [done|]. intros Hs'. congruence.
  - rewrite bool_decide_eq_true_2 by done.
    split; [done|]. split; [by right|]. split; [|done]. intros Hs'. congruence.
Qed.

(** Two jobs wait and the worker is at [queue.get]. *)
Definition two_world : World :=
  after [AddJob no_limit ∅ "a" 1%float true; AddJob no_limit ∅ "b" 2%float true].

Lemma worker_takes_head_witness :
  ∃ job, jobs (engine two_world) !! "a" = Some job
         ∧ queue (worker_get 3%float (engine two_world)).1 = ["b"].
Proof.
  destruct (worker_takes_head two_world 3%float "a" ["b"])
    as (_ & _ & job & Hjob & Hq & _).
  - reach [AddJob no_limit ∅ "a" 1%float true; AddJob no_limit ∅ "b" 2%float true].
  - vm_compute. reflexivity.
  - vm_compute. reflexivity.
  - exists job. split; [exact Hjob|exact Hq].
Defined.

(** X8: The key of a job in the table is the job's id, and the time stamps and
    the error text go with the status: a pending job has none; a running
    one has [started_at] only; a completed one has [started_at] and
    [completed_at] and no error; a failed one has all three; a cancelled one
    has [completed_at] and no error. *)
Theorem job_record_consistent (w : World) (i : string) (job : Job) :
  reachable w → jobs (engine w) !! i = Some job →
  id job = i
  ∧ match status job with
    | PENDING => started_at job = None ∧ completed_at job = None ∧ error job = None
    | RUNNING => is_Some (started_at job) ∧ completed_at job = None ∧ error job = None
    | COMPLETED =>
        is_Some (started_at job) ∧ is_Some (completed_at job) ∧ error job = None
    | FAILED =>
        is_Some (started_at job) ∧ is_Some (completed_at job) ∧ is_Some (error job)
    | CANCELLED => is_Some (completed_at job) ∧ error job = None
    end.
Proof.
  intros Hw%wf_reachable Hi. apply (wf_table w Hw i job Hi).
Qed.

Lemma job_record_consistent_witness :
  id (job_of "b" (engine busy_world)) = "b"
  ∧ is_Some (completed_at (job_of "b" (engine busy_world)))
  ∧ error (job_of "b" (engine busy_world)) = None.
Proof.
  assert (Hb : jobs (engine busy_world) !! "b" = Some (job_of "b" (engine busy_world)))
    by (vm_compute; reflexivity).
  assert (Hs : status (job_of "b" (engine busy_world)) = CANCELLED)
    by (vm_compute; reflexivity).
  assert (Hw : reachable busy_world).
  { reach [AddJob no_limit ∅ "a" 1%float true; AddJob no_limit ∅ "b" 2%float true; Get 3%float;
           CancelJob "b" 4%float]. }
  pose proof (job_record_consistent busy_world "b" _ Hw Hb) as [Hid Hok].
  rewrite Hs in Hok. split; [exact Hid|exact Hok].
Defined.

(** X9: One step of any thread leaves every job in the table, with the fields
    given at its creation, and moves its status along an edge of the state
    machine or not at all; the one exception are the two handlers of the
    worker loop, which set the status of the worker's current job to failed
    whatever it was. *)
Theorem status_moves_along_edges (s : Step) (w w' : World) (i : string) (job : Job) :
  reachable w → exec s w = Some w' → jobs (engine w) !! i = Some job →
  ∃ job', jobs (engine w') !! i = Some job'
          ∧ same_identity job job'
          ∧ (status job' = status job
             ∨ legal (status job) (status job') = true
             ∨ (status job' = FAILED ∧ current_job (engine w) = Some i)).
Proof.
  intros Hw%wf_reachable Hexec Hi.
  destruct (step_forward s w w' i job Hw Hexec Hi) as (job' & Hi' & (Hid & _ & Hs) & _).
  by exists job'.
Qed.

Lemma status_moves_along_edges_witness :
  ∃ w' job', exec (CancelJob "a" 3%float) two_world = Some w'
             ∧ jobs (engine w') !! "a" = Some job'
             ∧ same_identity (job_of "a" (engine two_world)) job'.
Proof.
  eexists.
  destruct (status_moves_along_edges (CancelJob "a" 3%float) two_world
              (default boot (exec (CancelJob "a" 3%float) two_world)) "a"
              (job_of "a" (engine two_world))) as (job' & Hjob' & Hid & _).
  - reach [AddJob no_limit ∅ "a" 1%float true; AddJob no_limit ∅ "b" 2%float true].
  - vm_compute. reflexivity.
  - vm_compute. reflexivity.
  - exists job'. split; [vm_compute; reflexivity|]. split; [exact Hjob'|exact Hid].
Defined.

(** X10: A job that is completed, failed or cancelled and is not the worker's
    current job keeps its status whatever the threads do afterwards: it is
    never run again. *)
Theorem finished_job_stays (l : list Step) (w w' : World) (i : string) (job : Job) :
  reachable w → jobs (engine w) !! i = Some job →
  status job = COMPLETED ∨ status job = FAILED ∨ status job = CANCELLED →
  current_job (engine w) ≠ Some i →
  run l w = Some w' →
  ∃ job', jobs (engine w') !! i = Some job' ∧ status job' = status job
          ∧ current_job (engine w') ≠ Some i.
Proof.
  intros Hw%wf_reachable Hi Hs Hc Hrun.
  destruct (run_forward l w w' i job Hw Hrun Hi) as (job' & Hi' & _ & Hfin).
  exists job'. split; [done|]. apply Hfin; [| |done].
  - by destruct Hs as [->|[->| ->]].
  - by destruct Hs as [->|[->| ->]].
Qed.

Lemma finished_job_stays_witness :
  ∃ w' job', run [Emit "a" "end" VNone; Start None None 5%float; CancelJob "b" 6%float;
                  UpdateJobProgress "b" VNone] busy_world = Some w'
             ∧ jobs (engine w') !! "b" = Some job' ∧ status job' = CANCELLED.
Proof.
  eexists.
  destruct (finished_job_stays
              [Emit "a" "end" VNone; Start None None 5%float; CancelJob "b" 6%float;
               UpdateJobProgress "b" VNone]
              busy_world
              (after [AddJob no_limit ∅ "a" 1%float true; AddJob no_limit ∅ "b" 2%float true; Get 3%float;
                      CancelJob "b" 4%float; Emit "a" "end" VNone; Start None None 5%float;
                      CancelJob "b" 6%float; UpdateJobProgress "b" VNone])
              "b" (job_of "b" (engine busy_world)))
    as (job' & Hjob' & Hs & _).
  - reach [AddJob no_limit ∅ "a" 1%float true; AddJob no_limit ∅ "b" 2%float true; Get 3%float;
           CancelJob "b" 4%float].
  - vm_compute. reflexivity.
  - right. right. vm_compute. reflexivity.
  - vm_compute. discriminate.
  - vm_compute. reflexivity.
  - exists job'. split; [vm_compute; reflexivity|]. split; [exact Hjob'|].
    rewrite Hs. vm_compute. reflexivity.
Defined.

(** X11: No job ever leaves the table, and the fields given to a job at its
    creation (id, params, [created_at], input image, latent type, thumbnail,
    generation type) are never changed. *)
Theorem job_identity_kept (l : list Step) (w w' : World) (i : string) (job : Job) :
  reachable w → run l w = Some w' → jobs (engine w) !! i = Some job →
  ∃ job', jobs (engine w') !! i = Some job'
          ∧ id job' = id job ∧ params job' = params job
          ∧ created_at job' = created_at job ∧ input_image job' = input_image job
          ∧ latent_type job' = latent_type job ∧ thumbnail job' = thumbnail job
          ∧ generation_type job' = generation_type job.
Proof.
  intros Hw%wf_reachable Hrun Hi.
  destruct (run_forward l w w' i job Hw Hrun Hi)
    as (job' & Hi' & (? & ? & ? & ? & ? & ? & ? & ?) & _).
  exists job'. by repeat split.
Qed.

Lemma job_identity_kept_witness :
  ∃ job', jobs (engine busy_world) !! "a" = Some job'
          ∧ created_at job' = created_at (job_of "a" (engine two_world)).
Proof.
  destruct (job_identity_kept [Get 3%float; CancelJob "b" 4%float] two_world busy_world "a"
              (job_of "a" (engine two_world)))
    as (job' & Hjob' & _ & _ & Hc & _).
  - reach [AddJob no_limit ∅ "a" 1%float true; AddJob no_limit ∅ "b" 2%float true].
  - vm_compute. reflexivity.
  - vm_compute. reflexivity.
  - exists job'. split; [exact Hjob'|exact Hc].
Defined.

Lemma queue_position_reachable (w : World) :
  reachable w → ∀ i job, jobs (engine w) !! i = Some job → queue_position job = None.
Proof.
  induction 1 as [|s w w' Hw IH Hexec]; [done|].
  intros i job' Hi'. apply wf_reachable in Hw.
  destruct (jobs (engine w) !! i) as [job|] eqn:Hi.
  - destruct (step_forward s w w' i job Hw Hexec Hi)
      as (job1 & Hi1 & ((_ & _ & _ & _ & _ & _ & _ & Hq) & _) & _).
    assert (job1 = job') as -> by congruence. rewrite Hq. by eapply IH.
  - destruct (step_backward s w w' i job' Hw Hexec Hi' Hi) as (p & now & Hnew).
    by eapply new_job_queue_position.
Qed.

(** X12: The field [queue_position] of a job is never assigned: it is [None] in
    every job of every world the threads reach, whatever
    [get_queue_position] answers, and so is the entry of the serialized
    record. *)
Theorem queue_position_never_set (w : World) (i : string) (job : Job) :
  reachable w → jobs (engine w) !! i = Some job →
  queue_position job = None
  ∧ ∀ lim r, serialize_body lim job = Ok r → r !! "queue_position" = Some VNone.
Proof.
  intros Hw Hi. pose proof (queue_position_reachable w Hw i job Hi) as Hq.
  split; [done|]. intros lim r Hr.
  apply serialize_body_Ok in Hr as (_ & sp & _ & ->). unfold simplified. rewrite Hq.
  by repeat (rewrite lookup_insert_ne by done); rewrite lookup_insert_eq.
Qed.

Lemma queue_position_never_set_witness :
  get_queue_position "b" (engine two_world) = Some 2%Z
  ∧ queue_position (job_of "b" (engine two_world)) = None.
Proof.
  split; [vm_compute; reflexivity|].
  apply (queue_position_never_set two_world "b").
  - reach [AddJob no_limit ∅ "a" 1%float true; AddJob no_limit ∅ "b" 2%float true].
  - vm_compute. reflexivity.
Defined.

(** ** The snapshot file *)

(** X13: In every world the threads reach, each record of [queue.json] is filed
    under the id it carries, and that id is the id of a job of the table. *)
Theorem snapshot_entries (w : World) (d : gmap string (gmap string PyVal)) (i : string)
    (r : gmap string PyVal) :
  reachable w → queue_json w = Some (Written d) → d !! i = Some r →
  is_Some (jobs (engine w) !! i) ∧ r !! "id" = Some (VStr i).
Proof. intros Hw%wf_reachable. apply (wf_file w Hw). Qed.

(** The document in [queue.json], if one was written. *)
Definition snapshot (w : World) : gmap string (gmap string PyVal) :=
  match queue_json w with
  | Some (Written d) => d
  | _ => ∅
  end.

Lemma snapshot_entries_witness :
  is_Some (jobs (engine two_world) !! "b")
  ∧ default ∅ (snapshot two_world !! "b") !! "id" = Some (VStr "b").
Proof.
  apply (snapshot_entries two_world (snapshot two_world)).
  - reach [AddJob no_limit ∅ "a" 1%float true; AddJob no_limit ∅ "b" 2%float true].
  - vm_compute. reflexivity.
  - vm_compute. reflexivity.
Defined.

Definition is_add_job (s : Step) : bool :=
  match s with
  | AddJob _ _ _ _ _ => true
  | _ => false
  end.

Lemma exec_queue_json (s : Step) (w w' : World) :
  is_add_job s = false → exec s w = Some w' → queue_json w' = queue_json w.
Proof.
  intros Hs Hexec. unfold exec in Hexec.
  destruct s; try done; destruct (pc w); simplify_eq; try done;
    repeat case_match; simplify_eq; done.
Qed.

(** X14: [queue.json] is written by [add_job] and by nothing else: steps other
    than a submission leave the file as it is, so a cancellation, a
    progress update or the end of a job is not in the file until the next
    job is submitted. *)
Theorem snapshot_written_by_add_job_only (l : list Step) (w w' : World) :
  Forall (λ s, is_add_job s = false) l → run l w = Some w' →
  queue_json w' = queue_json w.
Proof.
  revert w. induction l as [|s l IH]; intros w Hl Hrun; simpl in Hrun.
  - by injection Hrun as <-.
  - apply Forall_cons in Hl as [Hs Hl].
    destruct (exec s w) as [w1|] eqn:Hexec; [|done].
    rewrite (IH w1 Hl Hrun). by apply (exec_queue_json s).
Qed.

Lemma snapshot_written_by_add_job_only_witness :
  queue_json busy_world = queue_json two_world
  ∧ status (job_of "b" (engine busy_world)) = CANCELLED
  ∧ default ∅ (snapshot busy_world !! "b") !! "status" = Some (VStr "pending").
Proof.
  split; [|split; vm_compute; reflexivity].
  apply (snapshot_written_by_add_job_only [Get 3%float; CancelJob "b" 4%float]).
  - repeat constructor.
  - vm_compute. reflexivity.
Defined.

(** ** Submission that fails *)

(** X5: When the job cannot be built from the params, [add_job] raises
    before it touches anything: the table, the queue and [queue.json] are
    as before. The params are those with an input array on which PIL
    fails, and what is raised is what PIL raises on it; or those with no
    input image and a latent type that cannot be hashed, and what is raised
    is a [TypeError]. *)
Theorem add_job_failure_changes_nothing (lim : Limits) (p : gmap string PyVal)
    (job_id : string) (now : float) (open_ok : bool) (q : VideoJobQueue)
    (file : option FileContent) :
  constructible p = false →
  ∃ e, add_job lim p job_id now open_ok q file = (Raise e, q, file)
       ∧ match p !! "input_image" with
         | Some (VArray _ fault) => fault = Some e
         | _ => exn_class e = TypeError
         end.
Proof.
  intros Hp. unfold add_job.
  assert (∃ e, new_job job_id p now = Raise e
               ∧ match p !! "input_image" with
                 | Some (VArray _ fault) => fault = Some e
                 | _ => exn_class e = TypeError
                 end) as (e & -> & He).
  { revert Hp.
    unfold constructible, new_job, post_init, color_map_get, image_thumbnail, unhashable.
    cbn [params input_image latent_type thumbnail].
    destruct (p !! "input_image") as [v|].
    - destruct v as [| | | | | | | |a fault|]; cbn [mbind Res_bind]; try done.
      + destruct (p !! "latent_type") as [t|]; [|done].
        destruct (hashable t); cbn; [done|]. eauto.
      + destruct fault as [e|]; cbn; [|done]. eauto.
    - destruct (p !! "latent_type") as [t|]; [|done].
      destruct (hashable t); cbn; [done|]. eauto. }
  by exists e.
Qed.

Lemma add_job_failure_changes_nothing_witness :
  add_job no_limit (<["input_image" := VArray 1 (Some (Exn OSError "cannot write mode F as PNG"))]> ∅)
    "c" 5%float true (engine two_world) (queue_json two_world)
  = (Raise (Exn OSError "cannot write mode F as PNG"), engine two_world,
     queue_json two_world).
Proof.
  destruct (add_job_failure_changes_nothing no_limit
              (<["input_image" := VArray 1 (Some (Exn OSError "cannot write mode F as PNG"))]> ∅)
              "c" 5%float true (engine two_world) (queue_json two_world))
    as (e & Hadd & He).
  - vm_compute. reflexivity.
  - rewrite Hadd.
    assert (Some (Exn OSError "cannot write mode F as PNG") = Some e) as [= <-] by exact He.
    reflexivity.
Defined.

(** ** Positions after a cancellation *)

Lemma ahead_leave (t : float) (m : gmap string Job) (a : string) (job job' : Job) :
  m !! a = Some job → status job = PENDING → status job' ≠ PENDING →
  size (ahead t (<[a := job']> m))
  = (size (ahead t m) - (if PrimFloat.ltb (created_at job) t then 1 else 0))%nat.
Proof.
  intros Ha Hs Hs'. unfold ahead.
  rewrite map_filter_insert_False; [|simpl; by intros [? _]].
  rewrite map_filter_delete.
  destruct (PrimFloat.ltb (created_at job) t) eqn:Hlt.
  - rewrite map_size_delete_Some; [lia|].
    exists job. apply map_lookup_filter_Some_2; [done|]. by split.
  - rewrite map_size_delete_None; [lia|].
    apply map_lookup_filter_None_2. right. intros x Hx [_ Hlt'].
    simpl in Hlt'. congruence.
Qed.

(** X15: Cancelling a pending job takes it out of the count: the job itself has
    no position any more, a pending job created strictly later moves up by
    one, and every other pending job keeps its position. *)
Theorem cancel_moves_later_jobs_up (q : VideoJobQueue) (a b : string) (now : float)
    (job_a job_b : Job) :
  jobs q !! a = Some job_a → status job_a = PENDING →
  jobs q !! b = Some job_b → status job_b = PENDING → a ≠ b →
  get_queue_position a (cancel_job a now q).2 = None
  ∧ ∃ n, get_queue_position b q = Some n ∧ (1 ≤ n)%Z
         ∧ get_queue_position b (cancel_job a now q).2
           = Some (if PrimFloat.ltb (created_at job_a) (created_at job_b)
                   then n - 1 else n)%Z.
Proof.
  intros Ha Hsa Hb Hsb Hne.
  unfold cancel_job. rewrite Ha, Hsa. cbn [snd].
  unfold get_queue_position. cbn [jobs set_jobs].
  rewrite lookup_insert_eq. cbn [status set_completed_at set_status].
  split; [done|].
  rewrite lookup_insert_ne by done. rewrite Hb, Hsb, !position_count.
  eexists. split; [done|]. split; [lia|]. f_equal.
  fold (ahead (created_at job_b) (jobs q)).
  rewrite (ahead_leave _ _ a job_a) by done.
  destruct (PrimFloat.ltb (created_at job_a) (created_at job_b)) eqn:Hlt; [|lia].
  assert (size (ahead (created_at job_b) (jobs q)) ≠ 0)%nat; [|lia].
  apply (map_size_ne_0_lookup_2 _ a). exists job_a.
  apply map_lookup_filter_Some_2; [done|]. by split.
Qed.

Lemma cancel_moves_later_jobs_up_witness :
  get_queue_position "b" (engine two_world) = Some 2%Z
  ∧ get_queue_position "b" (cancel_job "a" 3%float (engine two_world)).2 = Some 1%Z.
Proof.
  assert (E : get_queue_position "b" (engine two_world) = Some 2%Z)
    by (vm_compute; reflexivity).
  split; [exact E|].
  destruct (cancel_moves_later_jobs_up (engine two_world) "a" "b" 3%float
              (job_of "a" (engine two_world)) (job_of "b" (engine two_world)))
    as (_ & n & Hn & _ & Hn').
  - vm_compute. reflexivity.
  - vm_compute. reflexivity.
  - vm_compute. reflexivity.
  - vm_compute. reflexivity.
  - discriminate.
  - rewrite Hn'. rewrite E in Hn. injection Hn as <-. vm_compute. reflexivity.
Defined.

(** ** The LIFO queue *)

(** [n] calls of [get], none of which waits. *)
Fixpoint gets (n : nat) (q : SimpleLifoQueue.t) : option (list PyVal * SimpleLifoQueue.t) :=
  match n with
  | O => Some ([], q)
  | S n =>
      match SimpleLifoQueue.get q with
      | Some (item, q') =>
          match gets n q' with
          | Some (items, q'') => Some (item :: items, q'')
          | None => None
          end
      | None => None
      end
  end.

(** [put] of each item of a list, in order. *)
Definition puts (items : list PyVal) (q : SimpleLifoQueue.t) : SimpleLifoQueue.t :=
  foldl (λ q item, SimpleLifoQueue.put item q) q items.

Lemma get_put (item : PyVal) (q : SimpleLifoQueue.t) :
  SimpleLifoQueue.get (SimpleLifoQueue.put item q) = Some (item, q).
Proof.
  unfold SimpleLifoQueue.get, SimpleLifoQueue.put.
  rewrite rev_app_distr. simpl. by rewrite rev_involutive.
Qed.

Lemma puts_app (items : list PyVal) (q : SimpleLifoQueue.t) : puts items q = q ++ items.
Proof.
  revert q. induction items as [|x items IH]; intros q; simpl.
  - by rewrite app_nil_r.
  - unfold puts in *. simpl. rewrite IH. unfold SimpleLifoQueue.put.
    by rewrite <- app_assoc.
Qed.

(** X16: [SimpleLifoQueue] gives back last what was put first: the item just put
    is the next one got, with the queue as it was before; after the items
    of a list have been put, as many calls of [get] return them in reverse
    order and leave the queue as it was; and [get] waits exactly when the
    queue is empty. *)
Theorem lifo_order (items : list PyVal) (q : SimpleLifoQueue.t) :
  gets (length items) (puts items q) = Some (rev items, q)
  ∧ (∀ item, SimpleLifoQueue.get (SimpleLifoQueue.put item q) = Some (item, q))
  ∧ (SimpleLifoQueue.get q = None ↔ q = []).
Proof.
  split; [|split].
  - rewrite puts_app. revert q.
    induction items as [|x items IH] using rev_ind; intros q.
    + simpl. by rewrite app_nil_r.
    + rewrite length_app, Nat.add_comm. simpl.
      rewrite app_assoc. fold (SimpleLifoQueue.put x (q ++ items)).
      rewrite get_put, IH, rev_app_distr. done.
  - intros item. apply get_put.
  - unfold SimpleLifoQueue.get. split.
    + intros H. destruct (rev q) eqn:Hq; [|done].
      rewrite <- (rev_involutive q), Hq. done.
    + by intros ->.
Qed.

Lemma new_job_shape (k : string) (p : gmap string PyVal) (now : float) (job : Job) :
  new_job k p now = Ok job →
  ∃ img lat thumb,
    job = mkJob k p PENDING now None None None VNone (VDict []) None (mkStream [] [])
            img lat thumb (default (VStr "Original") (p !! "model_type")).
Proof.
  unfold new_job, post_init, color_map_get, image_thumbnail.
  cbn [params input_image latent_type thumbnail id status created_at started_at
       completed_at error result progress_data queue_position stream generation_type].
  intros H.
  destruct (p !! "input_image") as [v|].
  - destruct v as [| | | | | | | |a fault|]; cbn in H; try (simplify_eq; by eauto).
    + destruct (p !! "latent_type") as [t|]; [|simplify_eq; by eauto].
      destruct (hashable t); cbn in H; simplify_eq; by eauto.
    + destruct fault; cbn in H; simplify_eq; by eauto.
  - destruct (p !! "latent_type") as [t|]; [|simplify_eq; by eauto].
    destruct (hashable t); cbn in H; simplify_eq; by eauto.
Qed.

Lemma run_step (s : Step) (l : list Step) (w w1 : World) :
  exec s w = Some w1 → run (s :: l) w = run l w1.
Proof. intros H. simpl. by rewrite H. Qed.

Lemma alter_one (f : Job → Job) (k : string) (x : Job) :
  alter f k (<[k := x]> (∅ : gmap string Job)) = <[k := f x]> ∅.
Proof.
  apply map_eq. intros i. destruct (decide (k = i)) as [->|Hne].
  - by rewrite lookup_alter_eq, !lookup_insert_eq.
  - by rewrite lookup_alter_ne, !lookup_insert_ne.
Qed.

(** Reduction of the record fields of worlds, queues and jobs. *)
Ltac fields :=
  unfold update_job, set_jobs, set_queue, set_worker_function, set_status, set_started_at,
    set_completed_at, set_error, set_result, set_progress_data, set_stream, push;
  cbn [engine pc queue_json queue jobs current_job worker_function is_processing
       init boot app fst snd
       id params status created_at started_at completed_at error result progress_data
       queue_position stream input_image latent_type thumbnail generation_type
       input_queue output_queue pc_job].

(** A session of one job: the worker function is set, the job is submitted
    and taken, its routine starts, reports a file and ends, and the worker
    reads both events and finishes. *)
Definition session (lim : Limits) (f : N) (p : gmap string PyVal) (job_id : string)
    (t0 t1 t2 t3 : float) (open_ok : bool) (file : PyVal) : list Step :=
  [SetWorkerFunction f; AddJob lim p job_id t0 open_ok; Get t1; Start None None t2;
   Emit job_id "file" file; Emit job_id "end" VNone; Check; Next; Check; Next;
   Finally None t3].

(** X17: A job built from params that have no [job_stream] key, submitted with a
    worker function set, whose routine reports a file and then its end, is
    completed by the worker: the status is completed, the result is the
    file, [started_at] is the time the job was taken and [completed_at] the
    time of [finally], there is no error, and the worker is idle again with
    an empty queue. *)
Theorem job_runs_to_completion (lim : Limits) (f : N) (p : gmap string PyVal)
    (job_id : string)
    (t0 t1 t2 t3 : float) (open_ok : bool) (file : PyVal) :
  constructible p = true → p !! "job_stream" = None →
  ∃ w job,
    run (session lim f p job_id t0 t1 t2 t3 open_ok file) boot = Some w
    ∧ jobs (engine w) !! job_id = Some job
    ∧ status job = COMPLETED ∧ result job = file
    ∧ started_at job = Some t1 ∧ completed_at job = Some t3 ∧ error job = None
    ∧ queue (engine w) = [] ∧ current_job (engine w) = None
    ∧ is_processing (engine w) = false ∧ pc w = AtGet.
Proof.
  intros Hp Hstream.
  apply (new_job_constructible job_id p t0) in Hp as [job Hnew].
  destruct (new_job_shape _ _ _ _ Hnew) as (img & lat & thumb & Hjob).
  subst job. unfold session.
  erewrite run_step; [|reflexivity]. fields.
  erewrite run_step.
  2: { unfold exec. fields.
       rewrite lookup_empty. unfold add_job. rewrite Hnew. fields. reflexivity. }
  generalize (save_queue_to_json lim open_ok). intros save. fields.
  erewrite run_step.
  2: { unfold exec, worker_get, worker_take. fields.
       rewrite lookup_insert_eq. fields.
       rewrite bool_decide_eq_false_2 by done. fields. reflexivity. }
  fields. rewrite insert_insert_eq.
  erewrite run_step.
  2: { unfold exec, start_error. fields. rewrite lookup_insert_eq. fields.
       rewrite Hstream. rewrite bool_decide_eq_false_2 by (by intros [? ?]).
       reflexivity. }
  fields.
  erewrite run_step; [|reflexivity]. unfold emit. fields. rewrite alter_one. fields.
  erewrite run_step; [|reflexivity]. unfold emit. fields. rewrite alter_one. fields.
  erewrite run_step.
  2: { unfold exec, worker_check. fields. rewrite lookup_insert_eq. fields.
       rewrite bool_decide_eq_false_2 by done. reflexivity. }
  fields.
  erewrite run_step.
  2: { unfold exec, worker_next. fields. rewrite lookup_insert_eq. fields.
       unfold on_event. rewrite (eq_refl : String.eqb "file" "file" = true).
       fields. rewrite !alter_one. fields. reflexivity. }
  fields.
  erewrite run_step.
  2: { unfold exec, worker_check. fields. rewrite lookup_insert_eq. fields.
       rewrite bool_decide_eq_false_2 by done. reflexivity. }
  fields.
  erewrite run_step.
  2: { unfold exec, worker_next. fields. rewrite lookup_insert_eq. fields.
       unfold on_event.
       rewrite (eq_refl : String.eqb "end" "file" = false),
         (eq_refl : String.eqb "end" "progress" = false),
         (eq_refl : String.eqb "end" "end" = true).
       fields. rewrite !alter_one. fields. reflexivity. }
  fields.
  erewrite run_step; [|reflexivity].
  unfold worker_finally, settle. fields. rewrite alter_one. fields.
  rewrite bool_decide_eq_true_2 by done. fields.
  eexists _, _. split; [reflexivity|]. fields. rewrite lookup_insert_eq.
  split; [reflexivity|]. done.
Qed.

Lemma job_runs_to_completion_witness :
  ∃ w job,
    run (session no_limit 1 (<["prompt" := VStr "a cat"]> ∅) "a" 1 2 3 4 true
           (VStr "out.mp4")) boot
    = Some w
    ∧ jobs (engine w) !! "a" = Some job
    ∧ status job = COMPLETED ∧ result job = VStr "out.mp4".
Proof.
  destruct (job_runs_to_completion no_limit 1 (<["prompt" := VStr "a cat"]> ∅) "a" 1 2 3 4 true
              (VStr "out.mp4"))
    as (w & job & Hrun & Hjob & Hs & Hr & _).
  - vm_compute. reflexivity.
  - vm_compute. reflexivity.
  - exists w, job. split; [exact Hrun|]. split; [exact Hjob|]. split; [exact Hs|exact Hr].
Defined.

(** A job is submitted and taken, and the start of its routine fails. *)
Definition failed_start (lim : Limits) (p : gmap string PyVal) (job_id : string)
    (t0 t1 t2 t3 : float)
    (open_ok : bool) (spawn : option PyExn) : list Step :=
  [AddJob lim p job_id t0 open_ok; Get t1; Start spawn None t2; Finally None t3].

(** X18: A job that the worker takes while no worker function is set fails: its
    status is failed, its error is the text of the [ValueError] of line 351,
    [completed_at] is the time of the handler, and the worker is idle again.
    With a worker function set, the same happens to a job whose params have
    the key [job_stream], which collides with the keyword argument of line
    356: the error is the text of the [TypeError]. *)
Theorem job_fails_at_start (lim : Limits) (f : N) (p : gmap string PyVal)
    (job_id : string)
    (t0 t1 t2 t3 : float) (open_ok : bool) (spawn : option PyExn) :
  constructible p = true →
  (∃ w job,
     run (failed_start lim p job_id t0 t1 t2 t3 open_ok spawn) boot = Some w
     ∧ jobs (engine w) !! job_id = Some job
     ∧ status job = FAILED
     ∧ error job = Some "Worker function not set. Call set_worker_function() first."
     ∧ started_at job = Some t1 ∧ completed_at job = Some t2
     ∧ current_job (engine w) = None ∧ is_processing (engine w) = false ∧ pc w = AtGet)
  ∧ (is_Some (p !! "job_stream") →
     ∃ w job,
       run (SetWorkerFunction f :: failed_start lim p job_id t0 t1 t2 t3 open_ok spawn) boot
       = Some w
       ∧ jobs (engine w) !! job_id = Some job
       ∧ status job = FAILED
       ∧ error job
         = Some "diffusers_helper.thread_utils.async_run() got multiple values for keyword argument 'job_stream'"
       ∧ started_at job = Some t1 ∧ completed_at job = Some t2
       ∧ current_job (engine w) = None ∧ is_processing (engine w) = false ∧ pc w = AtGet).
Proof.
  intros Hp.
  apply (new_job_constructible job_id p t0) in Hp as [job Hnew].
  destruct (new_job_shape _ _ _ _ Hnew) as (img & lat & thumb & Hjob).
  subst job. unfold failed_start. split.
  - erewrite run_step.
    2: { unfold exec. fields.
         rewrite lookup_empty. unfold add_job. rewrite Hnew. fields. reflexivity. }
    generalize (save_queue_to_json lim open_ok). intros save. fields.
    erewrite run_step.
    2: { unfold exec, worker_get, worker_take. fields.
         rewrite lookup_insert_eq. fields.
         rewrite bool_decide_eq_false_2 by done. fields. reflexivity. }
    fields. rewrite insert_insert_eq.
    erewrite run_step; [|reflexivity].
    unfold on_error. fields. rewrite alter_one. fields.
    erewrite run_step; [|reflexivity].
    unfold worker_finally, settle. fields. rewrite alter_one. fields.
    rewrite bool_decide_eq_false_2 by done.
    eexists _, _. split; [reflexivity|]. fields. rewrite lookup_insert_eq.
    split; [reflexivity|]. done.
  - intros Hstream.
    erewrite run_step; [|reflexivity]. fields.
    erewrite run_step.
    2: { unfold exec. fields.
         rewrite lookup_empty. unfold add_job. rewrite Hnew. fields. reflexivity. }
    generalize (save_queue_to_json lim open_ok). intros save. fields.
    erewrite run_step.
    2: { unfold exec, worker_get, worker_take. fields.
         rewrite lookup_insert_eq. fields.
         rewrite bool_decide_eq_false_2 by done. fields. reflexivity. }
    fields. rewrite insert_insert_eq.
    erewrite run_step.
    2: { unfold exec, start_error. fields. rewrite lookup_insert_eq. fields.
         rewrite bool_decide_eq_true_2 by done. reflexivity. }
    unfold on_error. fields. rewrite alter_one. fields.
    erewrite run_step; [|reflexivity].
    unfold worker_finally, settle. fields. rewrite alter_one. fields.
    rewrite bool_decide_eq_false_2 by done.
    eexists _, _. split; [reflexivity|]. fields. rewrite lookup_insert_eq.
    split; [reflexivity|]. done.
Qed.

Lemma job_fails_at_start_witness :
  ∃ w job,
    run (failed_start no_limit (<["prompt" := VStr "a cat"]> ∅) "a" 1 2 3 4 true None) boot
    = Some w
    ∧ jobs (engine w) !! "a" = Some job ∧ status job = FAILED.
Proof.
  destruct (job_fails_at_start no_limit 1 (<["prompt" := VStr "a cat"]> ∅) "a" 1 2 3 4 true
              None)
    as [(w & job & Hrun & Hjob & Hs & _) _].
  - vm_compute. reflexivity.
  - exists w, job. split; [exact Hrun|]. split; [exact Hjob|exact Hs].
Defined.

(** A job is cancelled while its routine runs, and the worker comes to the
    head of its loop. *)
Definition cancelled_run (lim : Limits) (f : N) (p : gmap string PyVal) (job_id : string)
    (t0 t1 t2 t3 t4 : float) (open_ok : bool) : list Step :=
  [SetWorkerFunction f; AddJob lim p job_id t0 open_ok; Get t1; Start None None t2;
   CancelJob job_id t3; Check; Finally None t4].

(** X19: A job cancelled while its routine runs ends cancelled: ['end'] is on the
    input side of its stream, the worker sees the status at the head of its
    loop and leaves, and [finally] keeps the status and the [completed_at]
    of the cancellation; the worker is idle again. *)
Theorem cancel_stops_running_job (lim : Limits) (f : N) (p : gmap string PyVal)
    (job_id : string)
    (t0 t1 t2 t3 t4 : float) (open_ok : bool) :
  constructible p = true → p !! "job_stream" = None →
  ∃ w job,
    run (cancelled_run lim f p job_id t0 t1 t2 t3 t4 open_ok) boot = Some w
    ∧ jobs (engine w) !! job_id = Some job
    ∧ status job = CANCELLED ∧ error job = None
    ∧ started_at job = Some t1 ∧ completed_at job = Some t3
    ∧ input_queue (stream job) = [VStr "end"]
    ∧ current_job (engine w) = None ∧ is_processing (engine w) = false ∧ pc w = AtGet.
Proof.
  intros Hp Hstream.
  apply (new_job_constructible job_id p t0) in Hp as [job Hnew].
  destruct (new_job_shape _ _ _ _ Hnew) as (img & lat & thumb & Hjob).
  subst job. unfold cancelled_run.
  erewrite run_step; [|reflexivity]. fields.
  erewrite run_step.
  2: { unfold exec. fields.
       rewrite lookup_empty. unfold add_job. rewrite Hnew. fields. reflexivity. }
  generalize (save_queue_to_json lim open_ok). intros save. fields.
  erewrite run_step.
  2: { unfold exec, worker_get, worker_take. fields.
       rewrite lookup_insert_eq. fields.
       rewrite bool_decide_eq_false_2 by done. fields. reflexivity. }
  fields. rewrite insert_insert_eq.
  erewrite run_step.
  2: { unfold exec, start_error. fields. rewrite lookup_insert_eq. fields.
       rewrite Hstream. rewrite bool_decide_eq_false_2 by (by intros [? ?]).
       reflexivity. }
  fields.
  erewrite run_step.
  2: { unfold exec, cancel_job. fields. rewrite lookup_insert_eq. fields. reflexivity. }
  fields. rewrite insert_insert_eq.
  erewrite run_step.
  2: { unfold exec, worker_check. fields. rewrite lookup_insert_eq. fields.
       rewrite bool_decide_eq_true_2 by done. reflexivity. }
  fields.
  erewrite run_step; [|reflexivity].
  unfold worker_finally, settle. fields. rewrite alter_one. fields.
  rewrite bool_decide_eq_false_2 by done.
  eexists _, _. split; [reflexivity|]. fields. rewrite lookup_insert_eq.
  split; [reflexivity|]. done.
Qed.

Lemma cancel_stops_running_job_witness :
  ∃ w job,
    run (cancelled_run no_limit 1 (<["prompt" := VStr "a cat"]> ∅) "a" 1 2 3 4 5 true) boot
    = Some w
    ∧ jobs (engine w) !! "a" = Some job ∧ status job = CANCELLED
    ∧ completed_at job = Some 4%float.
Proof.
  destruct (cancel_stops_running_job no_limit 1 (<["prompt" := VStr "a cat"]> ∅) "a" 1 2 3 4 5
              true)
    as (w & job & Hrun & Hjob & Hs & _ & _ & Hc & _).
  - vm_compute. reflexivity.
  - vm_compute. reflexivity.
  - exists w, job. split; [exact Hrun|]. split; [exact Hjob|]. split; [exact Hs|exact Hc].
Defined.
